(** * Router: a shallow embedding of montage's [core/router.js]

    The development follows the source file top to bottom:

    - [Js]      the JavaScript values and built-ins the router calls
                ([String], [parseInt], [encodeURIComponent],
                [decodeURIComponent], [split], [join]);
    - [RegExp]  a backtracking matcher for the regular expressions the
                router builds, after the continuation semantics of
                ECMA-262 (22.2.2);
    - [Router]  [compileRegExp], [compile], the [Router] constructor,
                [parse], [stringify] and the first pass of [observePath].

    Strings are [string]s of bytes: the UTF-8 bytes of the JavaScript
    string; bytes that are not well-formed UTF-8 stand for a string with
    a lone surrogate.  Matching is byte-wise, which agrees with matching
    on code units for every expression built here except on the
    non-ASCII members of [\s] and of the line terminators, which the
    model does not recognise.  Numbers are integers or NaN; they agree
    with JavaScript's doubles below 2^53 in absolute value, and the
    properties that depend on the value of a number stay below it.  The objects the router uses as maps
    ([backTable], [termsForDestination], [parameters]) are finite maps
    of their own properties: what an object inherits from
    [Object.prototype] is not in them, and the properties that read or
    write a key not known to be there leave the names of
    [Object.prototype] out.  A literal run of a pattern goes into the
    source of the expression as it is; the model compiles the patterns
    whose literal runs hold no syntax character of regular expressions
    ([plain] below), and has no route for the others.

    [LocationController] embeds [core/location-controller.js] the same
    way.  The notions the properties are stated with follow the
    embeddings, and the properties and their proofs come last. *)

From Stdlib Require Import Ascii String NArith ZArith Lia.
From stdpp Require Import gmap strings list fin_maps.

Local Open Scope char_scope.
Local Open Scope stdpp_scope.

(** ** JavaScript values and built-ins *)

Module Js.

(** Exceptions the modelled code can raise. *)
Inductive exn :=
| NoRoutes (destination : string)   (* new Error("No routes for the destination: ...") *)
| TypeError
| URIError.

Inductive result (A : Type) :=
| Ok (a : A)
| Throw (e : exn).
Global Arguments Ok {A} a.
Global Arguments Throw {A} e.

Definition bind {A B} (x : result A) (f : A -> result B) : result B :=
  match x with
  | Ok a => f a
  | Throw e => Throw e
  end.

Fixpoint mapM {A B} (f : A -> result B) (l : list A) : result (list B) :=
  match l with
  | [] => Ok []
  | a :: l' => bind (f a) (fun b => bind (mapM f l') (fun bs => Ok (b :: bs)))
  end.

Inductive number :=
| NaN
| Int (z : Z).

Inductive prim :=
| Undefined
| Null
| Str (s : string)
| Num (n : number).

(** A parameter value: a primitive or an array of primitives. *)
Inductive value :=
| Prim (p : prim)
| Arr (l : list prim).

(** *** Characters *)

Definition code (c : ascii) : N := N_of_ascii c.

Definition in_range (lo hi c : ascii) : bool :=
  ((code lo <=? code c) && (code c <=? code hi))%N.

Definition is_digit (c : ascii) : bool := in_range "0" "9" c.

(** [\w] *)
Definition is_word (c : ascii) : bool :=
  in_range "a" "z" c || in_range "A" "Z" c || is_digit c || Ascii.eqb c "_".

(** [\s], ASCII members: TAB, LF, VT, FF, CR, SP. *)
Definition is_space (c : ascii) : bool :=
  ((code c =? 9) || (code c =? 10) || (code c =? 11) || (code c =? 12)
   || (code c =? 13) || (code c =? 32))%N.

(** LineTerminator, ASCII members: LF, CR. *)
Definition is_line_terminator (c : ascii) : bool :=
  ((code c =? 10) || (code c =? 13))%N.

Definition to_upper (c : ascii) : ascii :=
  if in_range "a" "z" c then ascii_of_N (code c - 32) else c.

Definition to_lower (c : ascii) : ascii :=
  if in_range "A" "Z" c then ascii_of_N (code c + 32) else c.

(** *** Strings *)

Fixpoint str_take (n : nat) (s : string) : string :=
  match n, s with
  | S n', String c s' => String c (str_take n' s')
  | _, _ => EmptyString
  end.

Fixpoint str_drop (n : nat) (s : string) : string :=
  match n, s with
  | S n', String c s' => str_drop n' s'
  | _, _ => s
  end.

Fixpoint str_forallb (p : ascii -> bool) (s : string) : bool :=
  match s with
  | EmptyString => true
  | String c s' => p c && str_forallb p s'
  end.

Fixpoint str_existsb (p : ascii -> bool) (s : string) : bool :=
  match s with
  | EmptyString => false
  | String c s' => p c || str_existsb p s'
  end.

(** [parts.join(sep)] on an array of strings. *)
Fixpoint join (sep : string) (l : list string) : string :=
  match l with
  | [] => EmptyString
  | [s] => s
  | s :: l' => s +:+ sep +:+ join sep l'
  end.

(** [s.split(sep)] for a one-character separator: the pieces between
    the separators, never an empty array. *)
Fixpoint split_go (sep : ascii) (cur : string) (s : string) : list string :=
  match s with
  | EmptyString => [String.rev cur]
  | String c s' =>
      if Ascii.eqb c sep then String.rev cur :: split_go sep EmptyString s'
      else split_go sep (String c cur) s'
  end.
Definition split (sep : ascii) (s : string) : list string := split_go sep EmptyString s.

(** *** Numbers *)

Definition digit_char (d : N) : ascii := ascii_of_N (48 + d).
Definition digit_val (c : ascii) : N := code c - 48.

Fixpoint digits_go (fuel : nat) (n : N) (acc : string) : string :=
  match fuel with
  | 0 => acc
  | S fuel' =>
      let acc' := String (digit_char (n mod 10)) acc in
      if (n / 10 =? 0)%N then acc' else digits_go fuel' (n / 10) acc'
  end.

(** Decimal digits of a natural number, most significant first. *)
Definition digits (n : N) : string := digits_go (S (N.to_nat (N.log2 n))) n EmptyString.

(** [String(n)], [ToString] on numbers: all the digits of an integer,
    as the program writes them below 2^53 (and up to 10^21). *)
Definition number_to_string (n : number) : string :=
  match n with
  | NaN => "NaN"
  | Int (Zneg p) => String "-" (digits (Npos p))
  | Int z => digits (Z.to_N z)
  end.

Fixpoint skip_space (s : string) : string :=
  match s with
  | String c s' => if is_space c then skip_space s' else s
  | EmptyString => EmptyString
  end.

(** The longest prefix of decimal digits, as a number; [None] if empty. *)
Fixpoint digit_prefix (s : string) (acc : option N) : option N :=
  match s with
  | String c s' =>
      if is_digit c
      then digit_prefix s' (Some (10 * default 0%N acc + digit_val c)%N)
      else acc
  | EmptyString => acc
  end.

(** [parseInt(s, 10)]: leading white space, an optional sign, then the
    longest run of digits; NaN if there is none.  The integer is the
    number the program reads when it is below 2^53 in absolute value. *)
Definition parseInt (s : string) : number :=
  match skip_space s with
  | String "-" s' =>
      match digit_prefix s' None with
      | Some n => Int (- Z.of_N n)
      | None => NaN
      end
  | String "+" s' =>
      match digit_prefix s' None with
      | Some n => Int (Z.of_N n)
      | None => NaN
      end
  | s' =>
      match digit_prefix s' None with
      | Some n => Int (Z.of_N n)
      | None => NaN
      end
  end.

(** *** Conversions *)

Definition prim_to_string (p : prim) : string :=
  match p with
  | Undefined => "undefined"
  | Null => "null"
  | Str s => s
  | Num n => number_to_string n
  end.

(** An element inside [Array.prototype.join]: undefined and null are
    empty. *)
Definition element_to_string (p : prim) : string :=
  match p with
  | Undefined | Null => EmptyString
  | _ => prim_to_string p
  end.

(** [ToString(v)], as in the concatenation of the empty string and [v]. *)
Definition to_string (v : value) : string :=
  match v with
  | Prim p => prim_to_string p
  | Arr l => join "," (element_to_string <$> l)
  end.

(** [ToBoolean] on primitives. *)
Definition truthy (p : prim) : bool :=
  match p with
  | Undefined | Null => false
  | Str s => negb (String.eqb s EmptyString)
  | Num NaN => false
  | Num (Int z) => negb (z =? 0)%Z
  end.

(** [v != null] *)
Definition not_nullish (v : value) : bool :=
  match v with
  | Prim Undefined | Prim Null => false
  | _ => true
  end.

(** *** Percent encoding *)

Definition hex_char (d : N) : ascii :=
  if (d <? 10)%N then ascii_of_N (48 + d) else ascii_of_N (55 + d).

Definition hex_val (c : ascii) : option N :=
  if is_digit c then Some (code c - 48)%N
  else if in_range "A" "F" c then Some (code c - 55)%N
  else if in_range "a" "f" c then Some (code c - 87)%N
  else None.

(** uriUnescaped: alphanumerics and [- _ . ! ~ * ' ( )]. *)
Definition is_unreserved (c : ascii) : bool :=
  in_range "a" "z" c || in_range "A" "Z" c || is_digit c
  || str_existsb (Ascii.eqb c) "-_.!~*'()".

(** Every byte that is not unreserved becomes [%XX]. *)
Fixpoint escape_bytes (s : string) : string :=
  match s with
  | EmptyString => EmptyString
  | String c s' =>
      if is_unreserved c then String c (escape_bytes s')
      else String "%" (String (hex_char (code c / 16))
             (String (hex_char (code c mod 16)) (escape_bytes s')))
  end.

(** Well-formed UTF-8: the form of a string without a lone surrogate.
    A string of bytes that is not well-formed stands for a string with
    a lone surrogate, which has no UTF-8 form.  [utf8_tail] reads [n]
    bytes after the first of a character, the first of them within
    [lo, hi]; [utf8_char] reads one character; both return the text
    left. *)
Fixpoint utf8_tail (n : nat) (lo hi : N) (s : string) : option string :=
  match n with
  | 0 => Some s
  | S n' =>
      match s with
      | String c s' =>
          if ((lo <=? code c) && (code c <=? hi))%N then utf8_tail n' 128 191 s'
          else None
      | EmptyString => None
      end
  end.

Definition utf8_char (s : string) : option string :=
  match s with
  | EmptyString => None
  | String c s' =>
      let b := code c in
      if (b <? 128)%N then Some s'
      else if (b <? 194)%N then None
      else if (b <? 224)%N then utf8_tail 1 128 191 s'
      else if (b =? 224)%N then utf8_tail 2 160 191 s'
      else if (b =? 237)%N then utf8_tail 2 128 159 s'
      else if (b <? 240)%N then utf8_tail 2 128 191 s'
      else if (b =? 240)%N then utf8_tail 3 144 191 s'
      else if (b <? 244)%N then utf8_tail 3 128 191 s'
      else if (b =? 244)%N then utf8_tail 3 128 143 s'
      else None
  end.

Fixpoint utf8_go (fuel : nat) (s : string) : bool :=
  match s with
  | EmptyString => true
  | _ =>
      match fuel with
      | 0 => false
      | S fuel' =>
          match utf8_char s with
          | Some s' => utf8_go fuel' s'
          | None => false
          end
      end
  end.

Definition utf8 (s : string) : bool := utf8_go (String.length s) s.

(** [encodeURIComponent]: the bytes of the UTF-8 form that are not
    unreserved are escaped; a lone surrogate raises URIError. *)
Definition encodeURIComponent (s : string) : result string :=
  if utf8 s then Ok (escape_bytes s) else Throw URIError.

(** One escape [%XX] at the head of [s]. *)
Definition escape_byte (s : string) : option (N * string) :=
  match s with
  | String "%" (String h (String l s')) =>
      match hex_val h, hex_val l with
      | Some a, Some b => Some (16 * a + b, s')%N
      | _, _ => None
      end
  | _ => None
  end.

(** [n] continuation bytes, each escaped, the first within [lo, hi]. *)
Fixpoint continuation (n : nat) (lo hi : N) (s : string) : option (string * string) :=
  match n with
  | 0 => Some (EmptyString, s)
  | S n' =>
      match escape_byte s with
      | Some (b, s') =>
          if ((lo <=? b) && (b <=? hi))%N then
            match continuation n' 128 191 s' with
            | Some (bs, s'') => Some (String (ascii_of_N b) bs, s'')
            | None => None
            end
          else None
      | None => None
      end
  end.

(** [decodeURIComponent]: every escape is decoded; an escape that is
    not two hex digits, or escaped bytes that are not well-formed
    UTF-8, raise URIError. *)
Fixpoint decode_go (fuel : nat) (s : string) : result string :=
  match fuel with
  | 0 => Ok EmptyString
  | S fuel' =>
      match s with
      | EmptyString => Ok EmptyString
      | String "%" _ =>
          match escape_byte s with
          | None => Throw URIError
          | Some (b, s') =>
              let seq :=
                if (b <? 128)%N then Some (EmptyString, s')
                else if (b <? 194)%N then None
                else if (b <? 224)%N then continuation 1 128 191 s'
                else if (b =? 224)%N then continuation 2 160 191 s'
                else if (b =? 237)%N then continuation 2 128 159 s'
                else if (b <? 240)%N then continuation 2 128 191 s'
                else if (b =? 240)%N then continuation 3 144 191 s'
                else if (b <? 244)%N then continuation 3 128 191 s'
                else if (b =? 244)%N then continuation 3 128 143 s'
                else None in
              match seq with
              | None => Throw URIError
              | Some (bs, s'') =>
                  bind (decode_go fuel' s'') (fun r =>
                    Ok (String (ascii_of_N b) (bs +:+ r)))
              end
          end
      | String c s' => bind (decode_go fuel' s') (fun r => Ok (String c r))
      end
  end.
Definition decodeURIComponent (s : string) : result string :=
  decode_go (String.length s) s.

End Js.

Export Js.

(** ** Regular expressions

    The fragment of the regular-expression language that the router's
    sources are written in, and its matcher.  [rmatch] follows the
    continuation semantics of ECMA-262 22.2.2: a matcher takes the current
    position (here the unread suffix of the input), the captures so far
    and a continuation, and backtracks by trying the next choice when the
    continuation fails.  Capturing groups are numbered by their left
    parentheses. *)

Module RegExp.

Inductive citem :=
| CChar (c : ascii)
| CRange (lo hi : ascii)
| CDigit       (* \d *)
| CWord        (* \w *)
| CSpace.      (* \s *)

Inductive regex :=
| Empty                                              (* the empty alternative *)
| Chr (c : ascii)                                    (* a pattern character, or \c *)
| Dot                                                (* . *)
| Class (neg : bool) (items : list citem)            (* [...] and [^...] *)
| Seq (r1 r2 : regex)                                (* r1r2 *)
| Alt (r1 r2 : regex)                                (* r1|r2 *)
| Repeat (min : nat) (max : option nat) (r : regex)  (* greedy r{min,max} *)
| Group (r : regex)                                  (* (r) *)
| NoCap (r : regex)                                  (* (?:r) *)
| Bol                                                (* ^ *)
| Eol.                                               (* $ *)

Abbreviation Star r := (Repeat 0 None r).          (* r starred *)
Abbreviation Plus r := (Repeat 1 None r).          (* r+ *)
Abbreviation Opt r := (Repeat 0 (Some 1) r).       (* r? *)
Abbreviation Digit := (Class false [CDigit]).      (* \d *)
Abbreviation Word := (Class false [CWord]).        (* \w *)

Record t := { source : regex; ignoreCase : bool }.

Fixpoint ngroups (r : regex) : nat :=
  match r with
  | Seq r1 r2 | Alt r1 r2 => ngroups r1 + ngroups r2
  | Repeat _ _ r1 | NoCap r1 => ngroups r1
  | Group r1 => S (ngroups r1)
  | _ => 0
  end.

Definition citem_mem (i : citem) (c : ascii) : bool :=
  match i with
  | CChar a => Ascii.eqb a c
  | CRange lo hi => in_range lo hi c
  | CDigit => is_digit c
  | CWord => is_word c
  | CSpace => is_space c
  end.

Definition class_mem (items : list citem) (c : ascii) : bool :=
  List.existsb (fun i => citem_mem i c) items.

(** Captures of the groups 1, 2, ... at positions 0, 1, ... *)
Abbreviation captures := (list (option string)).
Abbreviation mstate := (string * captures)%type.
Abbreviation cont := (string -> captures -> option mstate).

(** Reset the captures of the [cnt] groups from [idx] on. *)
Fixpoint clear_caps (idx cnt : nat) (caps : captures) : captures :=
  match cnt with
  | 0 => caps
  | S cnt' => <[idx := None]> (clear_caps (S idx) cnt' caps)
  end.

(** RepeatMatcher(m, min, max, greedy = true, x, c, parenIndex,
    parenCount).  An iteration that consumes nothing once the minimum is
    reached is rejected, so the input bounds the number of rounds;
    [fuel] counts them. *)
Fixpoint RepeatMatcher (m : string → captures → cont → option mstate)
    (idx cnt : nat) (fuel min : nat) (max : option nat)
    (s : string) (caps : captures) (k : cont) {struct fuel} : option mstate :=
  match fuel with
  | 0 => None
  | S fuel' =>
      match max with
      | Some 0 => k s caps
      | _ =>
          let d := fun s' caps' =>
            if Nat.eqb min 0 && Nat.eqb (String.length s') (String.length s)
            then None
            else RepeatMatcher m idx cnt fuel' (pred min) (pred <$> max) s' caps' k in
          let xr := clear_caps idx cnt caps in
          if Nat.eqb min 0 then
            match m s xr d with
            | Some z => Some z
            | None => k s caps
            end
          else m s xr d
      end
  end.

Section Matcher.
Variable ic : bool.  (* the i flag *)
Variable n0 : nat.   (* length of the whole input *)

(** Canonicalize, on ASCII letters. *)
Definition canon (c : ascii) : ascii := if ic then to_upper c else c.

Definition char_eq (a c : ascii) : bool := Ascii.eqb (canon a) (canon c).

(** CharacterSetMatcher: some member of the set has the canonical
    form of [c]. *)
Definition set_mem (items : list citem) (c : ascii) : bool :=
  if ic then class_mem items c || class_mem items (to_upper c)
            || class_mem items (to_lower c)
  else class_mem items c.

Fixpoint rmatch (r : regex) (idx : nat) (s : string) (caps : captures)
    (k : cont) {struct r} : option mstate :=
  match r with
  | Empty => k s caps
  | Chr a =>
      match s with
      | String c s' => if char_eq a c then k s' caps else None
      | EmptyString => None
      end
  | Dot =>
      match s with
      | String c s' => if is_line_terminator c then None else k s' caps
      | EmptyString => None
      end
  | Class neg items =>
      match s with
      | String c s' => if xorb neg (set_mem items c) then k s' caps else None
      | EmptyString => None
      end
  | Seq r1 r2 =>
      rmatch r1 idx s caps (fun s' caps' => rmatch r2 (idx + ngroups r1) s' caps' k)
  | Alt r1 r2 =>
      match rmatch r1 idx s caps k with
      | Some z => Some z
      | None => rmatch r2 (idx + ngroups r1) s caps k
      end
  | Repeat min max r1 =>
      RepeatMatcher (rmatch r1 idx) idx (ngroups r1) (S (min + String.length s))
        min max s caps k
  | Group r1 =>
      rmatch r1 (S idx) s caps (fun s' caps' =>
        k s' (<[idx := Some (str_take (String.length s - String.length s') s)]> caps'))
  | NoCap r1 => rmatch r1 idx s caps k
  | Bol => if Nat.eqb (String.length s) n0 then k s caps else None
  | Eol => match s with EmptyString => k s caps | _ => None end
  end.
End Matcher.

(** One attempt of [re] at the suffix [s] of an input of length [n0]:
    the suffix left after the match, and the captures. *)
Definition match_at (re : t) (n0 : nat) (s : string) : option mstate :=
  rmatch (ignoreCase re) n0 (source re) 0 s
    (replicate (ngroups (source re)) None) (fun s' caps => Some (s', caps)).

(** The match array: the whole match, then the captures. *)
Definition match_array (s : string) (z : mstate) : list (option string) :=
  Some (str_take (String.length s - String.length (fst z)) s) :: snd z.

(** [re.exec(input)] without the g flag: the first start position, from
    the left, at which the expression matches. *)
Fixpoint exec_from (re : t) (n0 : nat) (fuel : nat) (s : string)
    : option (list (option string)) :=
  match match_at re n0 s with
  | Some z => Some (match_array s z)
  | None =>
      match fuel, s with
      | S fuel', String _ s' => exec_from re n0 fuel' s'
      | _, _ => None
      end
  end.
Definition exec (re : t) (input : string) : option (list (option string)) :=
  exec_from re (String.length input) (String.length input) input.

(** A piece of the result of [input.replace(re, callback)] with the g
    flag: a character no match covers, copied as it is, or a match,
    handed to the callback as its array. *)
Inductive piece :=
| Unmatched (c : ascii)
| Matched (m : list (option string)).

Fixpoint scan_from (re : t) (n0 : nat) (fuel : nat) (s : string) : list piece :=
  match fuel with
  | 0 => []
  | S fuel' =>
      match s with
      | EmptyString =>
          match match_at re n0 s with
          | Some z => [Matched (match_array s z)]
          | None => []
          end
      | String c s' =>
          match match_at re n0 s with
          | Some z =>
              if Nat.eqb (String.length (fst z)) (String.length s)
              then (* empty match: step over one character *)
                Matched (match_array s z) :: Unmatched c :: scan_from re n0 fuel' s'
              else Matched (match_array s z) :: scan_from re n0 fuel' (fst z)
          | None => Unmatched c :: scan_from re n0 fuel' s'
          end
      end
  end.
Definition scan (re : t) (input : string) : list piece :=
  scan_from re (String.length input) (S (String.length input)) input.

End RegExp.

Export RegExp.

(** ** The router *)

Module Router.

(** A variable of a pattern.  [name] is the property key the variable
    reads and writes in [parameters]: the identifier after the prefix
    or, without one, the decimal form of the position counter [i++]. *)
Record variable := {
  prefix : string;
  name : string;
  numeric : bool;
  optional : bool;
  plural : bool;
  slash : bool
}.

(** What [compileRegExp] pushes on [terms]: [{type: "literal", value}],
    a variable, or [{type: "path"}]. *)
Inductive term :=
| Literal (value : string)
| Var (v : variable)
| Path.

(** [term.name] as a property key, [term.slash] and [term.plural] as
    conditions; [{type: "path"}] has none of the three properties, so
    its key is ["undefined"] and both conditions are false. *)
Definition term_name (t : term) : string :=
  match t with
  | Var v => name v
  | _ => "undefined"
  end.
Definition term_slash (t : term) : bool :=
  match t with
  | Var v => slash v
  | _ => false
  end.
Definition term_plural (t : term) : bool :=
  match t with
  | Var v => plural v
  | _ => false
  end.

(** *** [expression], the tokens of a pattern

    With the g flag.  Its groups, in order: slash [/?]; then one of
    - a colon and the escape, one of [: * + &];
    - the prefix, one of [:], [*], [+], [...]; the name, a run of [\w],
      maybe empty; the suffix, [?], [&] or nothing;
    - the special, one of [- [ ] { } ( ) * + . ^ $ | , #] or [\s];
    - the literal, a run of one or more characters other than
      [/ : * + . &]. *)
Definition expression : RegExp.t := {|
  source :=
    Seq (Group (Opt (Chr "/")))
      (NoCap
        (Alt (Seq (Chr ":")
                  (Group (Class false [CChar ":"; CChar "*"; CChar "+"; CChar "&"])))
        (Alt (Seq (Group (Alt (Chr ":")
                         (Alt (Chr "*")
                         (Alt (Chr "+")
                              (Seq (Chr ".") (Seq (Chr ".") (Chr ".")))))))
             (Seq (Group (Star Word))
                  (Group (Alt (Class false [CChar "?"; CChar "&"]) Empty))))
        (Alt (Group (Class false
                      [CChar "-"; CChar "["; CChar "]"; CChar "{"; CChar "}";
                       CChar "("; CChar ")"; CChar "*"; CChar "+"; CChar ".";
                       CChar "^"; CChar "$"; CChar "|"; CChar ","; CChar "#";
                       CSpace]))
             (Group (Plus (Class true
                      [CChar "/"; CChar ":"; CChar "*"; CChar "+"; CChar ".";
                       CChar "&"])))))));
  ignoreCase := false
|}.

(** *** [compileRegExp] *)

(** SyntaxCharacter. *)
Definition is_syntax (c : ascii) : bool := str_existsb (Ascii.eqb c) "^$\.*+?()[]{}|".

(** The expression of a run of ordinary characters copied into the
    source.  A run with a syntax character has no expression of its
    own: what it means depends on the source around it, and the whole
    source may be no regular expression at all.  Such patterns are
    outside the model ([None]); [plain] below tells the patterns that
    have none. *)
Fixpoint lit (s : string) : option regex :=
  match s with
  | EmptyString => Some Empty
  | String c s' =>
      if is_syntax c then None
      else match lit s' with
           | Some r => Some (Seq (Chr c) r)
           | None => None
           end
  end.

(** [slash] copied into the source: ["/"] or nothing. *)
Definition slash_re (sl : string) : regex :=
  match sl with
  | EmptyString => Empty
  | _ => Chr "/"
  end.

(** A backslash copied before [s]: the first character of [s] stands
    for itself when it is no word character (an identity escape), the
    others are copied as they are. *)
Definition escaped (s : string) : option regex :=
  match s with
  | String c s' =>
      if is_word c then None
      else match lit s' with
           | Some r => Some (Seq (Chr c) r)
           | None => None
           end
  | EmptyString => None
  end.

(** [slash], then [r]. *)
Definition after_slash (sl : string) (r : option regex) : option regex :=
  match r with
  | Some r' => Some (Seq (slash_re sl) r')
  | None => None
  end.

(** The arguments of the callback, out of the match array. *)
Definition arg (m : list (option string)) (i : nat) : option string := mjoin (m !! i).
Definition is_truthy (a : option string) : bool :=
  match a with
  | Some (String _ _) => true
  | _ => false
  end.
Definition text (a : option string) : string := default "undefined" a.

(** The state the callback updates: the counter [i] and the two arrays
    it pushes on. *)
Record cstate := {
  counter : nat;
  variables : list variable;
  terms : list term
}.

Definition positional (i : nat) : string := digits (N.of_nat i).

(** The callback of [pattern.replace(expression, ...)]: the new state
    and the text it returns, as an expression.  [sl] is [slash], the
    capture of the first group, which takes part in every match. *)
Definition callback (m : list (option string)) (st : cstate) : cstate * option regex :=
  let sl := text (arg m 1) in
  let escape := arg m 2 in
  let pre := arg m 3 in
  let nm := arg m 4 in
  let suffix := text (arg m 5) in
  let special := arg m 6 in
  let literal := arg m 7 in
  if is_truthy pre then
    let prefix := text pre in
    let v := {|
      prefix := prefix;
      name := if is_truthy nm then text nm else positional (counter st);
      numeric := String.eqb prefix "+";
      optional := String.eqb suffix "?";
      plural := String.eqb suffix "&";
      slash := is_truthy (Some sl)
    |} in
    let i' := if is_truthy nm then counter st else S (counter st) in
    if String.eqb prefix "..." then
      (* an opening parenthesis, "/?" if slash, ". *" and the closing one *)
      ({| counter := i'; variables := variables st ++ [v];
          terms := terms st ++ [Var v; Path] |},
       Some (Group (Seq (if is_truthy (Some sl) then Opt (Chr "/") else Empty)
                        (Star Dot))))
    else if String.eqb suffix "&" then
      let elem :=
        if String.eqb prefix "+" then Plus Digit                (* \d+ *)
        else if String.eqb prefix "*" then Star (Class true [CChar "&"])   (* [^&] starred *)
        else Star (Class true [CChar "/"; CChar "&"]) in        (* [^/&] starred *)
      (* (?: slash ( term (?: \& term )* | ) )? *)
      ({| counter := i'; variables := variables st ++ [v];
          terms := terms st ++ [Var v] |},
       Some (Opt (NoCap (Seq (slash_re sl)
               (Group (Alt (Seq elem (Star (NoCap (Seq (Chr "&") elem)))) Empty))))))
    else
      let body :=
        if String.eqb prefix "+" then Group (Plus Digit)        (* ( \d+ ) *)
        else if String.eqb prefix "*" then Group (Star Dot)     (* ( . starred ) *)
        else Group (Star (Class true [CChar "/"])) in           (* ( [^/] starred ) *)
      (* (?: slash body ), followed by ? when the suffix is ? *)
      let r := NoCap (Seq (slash_re sl) body) in
      ({| counter := i'; variables := variables st ++ [v];
          terms := terms st ++ [Var v] |},
       Some (if String.eqb suffix "?" then Opt r else r))
  else if is_truthy escape then
    (* slash, a backslash, escape *)
    ({| counter := counter st; variables := variables st;
        terms := terms st ++ [Literal (sl +:+ text escape)] |},
     after_slash sl (escaped (text escape)))
  else if is_truthy literal then
    (* slash + literal *)
    ({| counter := counter st; variables := variables st;
        terms := terms st ++ [Literal (sl +:+ text literal)] |},
     lit (sl +:+ text literal))
  else if is_truthy special then
    (* slash, a backslash, special *)
    ({| counter := counter st; variables := variables st;
        terms := terms st ++ [Literal (sl +:+ text special)] |},
     after_slash sl (escaped (text special)))
  else
    ({| counter := counter st; variables := variables st;
        terms := terms st ++ [Literal (sl +:+ text literal)] |},
     lit (sl +:+ text literal)).

(** [pattern.replace(expression, callback)]: the pieces in order, the
    texts concatenated. *)
Fixpoint replace (ps : list piece) (st : cstate) : cstate * option regex :=
  match ps with
  | [] => (st, Some Empty)
  | p :: ps' =>
      let '(st1, r1) :=
        match p with
        | Unmatched c => (st, lit (String c EmptyString))
        | Matched m => callback m st
        end in
      let '(st2, r2) := replace ps' st1 in
      (st2, match r1, r2 with
            | Some a, Some b => Some (Seq a b)
            | _, _ => None
            end)
  end.

(** [compileRegExp(pattern, variables, terms, insensitive)]; the two
    arrays start empty at the only call.  [insensitive] is [None] when
    the argument is not passed. *)
Definition compileRegExp (pattern : string) (insensitive : option bool)
    : option (RegExp.t * list variable * list term) :=
  let '(st, re) := replace (scan expression pattern)
                     {| counter := 0; variables := []; terms := [] |} in
  match re with
  | Some r =>
      (* new RegExp('^' + re + '$', !insensitive ? '' : 'i') *)
      Some ({| source := Seq Bol (Seq r Eol);
               ignoreCase := negb (negb (default false insensitive)) |},
            variables st, terms st)
  | None => None
  end.

(** *** [compile] *)

Record route := {
  destination : string;
  route_variables : list variable;
  route_terms : list term;
  regExp : RegExp.t
}.

(** [compile(pattern, destination, insensitive)]: [compileRegExp] is
    called with three arguments, its fourth parameter is undefined. *)
Definition compile (pattern destination : string) (insensitive : bool) : option route :=
  match compileRegExp pattern None with
  | Some (re, vs, ts) =>
      Some {| destination := destination; route_variables := vs;
              route_terms := ts; regExp := re |}
  | None => None
  end.

(** The object [match] returns. *)
Record ParseResult := {
  res_destination : string;
  parameters : gmap string value;
  path : prim
}.

(** [match[i + 1]] or else the empty string: the capture, unless the
    group took no part in the match or captured nothing. *)
Definition or_empty (capture : option string) : string :=
  if is_truthy capture then text capture else EmptyString.

(** One round of the loop over [variables] in [match]. *)
Definition bind_variable (v : variable) (capture : option string)
    (acc : gmap string value * prim) : result (gmap string value * prim) :=
  let '(params, remainingPath) := acc in
  let value := or_empty capture in
  if plural v then
    bind (if String.eqb value EmptyString then Ok []
          else bind (mapM decodeURIComponent (split "&" value)) (fun values =>
                 Ok (if numeric v then (fun t => Num (parseInt t)) <$> values
                     else Str <$> values)))
         (fun values => Ok (<[name v := Arr values]> params, remainingPath))
  else
    let value := if numeric v then Num (parseInt value) else Str value in
    if String.eqb (prefix v) "..." then Ok (params, value)
    else Ok (<[name v := Prim value]> params, remainingPath).

Fixpoint bind_variables (vs : list variable) (i : nat) (m : list (option string))
    (acc : gmap string value * prim) : result (gmap string value * prim) :=
  match vs with
  | [] => Ok acc
  | v :: vs' =>
      bind (bind_variable v (arg m (i + 1)) acc) (bind_variables vs' (S i) m)
  end.

(** [route.match(path)]: [Ok None] is the undefined of no match. *)
Definition route_match (r : route) (p : string) : result (option ParseResult) :=
  match exec (regExp r) p with
  | Some m =>
      bind (bind_variables (route_variables r) 0 m (∅, Undefined)) (fun '(params, rest) =>
        Ok (Some {| res_destination := destination r; parameters := params;
                    path := rest |}))
  | None => Ok None
  end.

(** *** The [Router] constructor *)

Record router := {
  table : list route;
  backTable : gmap string (list route);
  termsForDestination : gmap string (gmap string variable)
}.

(** One round of the loop over [patterns]. *)
Definition add_route (pre : string) (insensitive : bool) (acc : router)
    (entry : string * string) : option router :=
  let '(pattern, destination) := entry in
  match compile (pre +:+ pattern) destination insensitive with
  | Some route =>
      let routes := default [] (backTable acc !! destination) in
      let terms := default ∅ (termsForDestination acc !! destination) in
      Some {|
        table := table acc ++ [route];
        backTable := <[destination := routes ++ [route]]> (backTable acc);
        termsForDestination :=
          <[destination := foldl (fun ts v => <[name v := v]> ts) terms
                             (route_variables route)]> (termsForDestination acc)
      |}
  | None => None
  end.

Fixpoint add_routes (pre : string) (insensitive : bool) (acc : router)
    (routes : list (string * string)) : option router :=
  match routes with
  | [] => Some acc
  | entry :: routes' =>
      match add_route pre insensitive acc entry with
      | Some acc' => add_routes pre insensitive acc' routes'
      | None => None
      end
  end.

(** [new Router(prefix, routes, insensitive)]; [routes] lists the
    entries of the object in the order of [Object.keys]. *)
Definition no_routes : router :=
  {| table := []; backTable := ∅; termsForDestination := ∅ |}.

Definition Router (pre : string) (routes : list (string * string))
    (insensitive : bool) : option router :=
  add_routes pre insensitive no_routes routes.

(** *** [parse] *)

(** The first route, in table order, whose [match] is not undefined. *)
Fixpoint parse_table (tbl : list route) (p : string) : result (option ParseResult) :=
  match tbl with
  | [] => Ok None
  | r :: tbl' =>
      bind (route_match r p) (fun m =>
        match m with
        | Some res => Ok (Some res)
        | None => parse_table tbl' p
        end)
  end.

Definition parse (r : router) (p : string) : result (option ParseResult) :=
  parse_table (table r) p.

(** *** [stringify] *)

(** The state object; [st_parameters] is [None] when
    [state.parameters] is null or undefined. *)
Record state := {
  st_destination : string;
  st_parameters : option (gmap string value);
  remainingPath : prim
}.

(** [state.parameters != null && state.parameters[key] != null], with
    the value. *)
Definition present (st : state) (key : string) : option value :=
  match st_parameters st with
  | Some ps =>
      match ps !! key with
      | Some v => if not_nullish v then Some v else None
      | None => None
      end
  | None => None
  end.

(** What one round of the loop over [terms] pushes on [parts], joined. *)
Definition stringify_term (st : state) (t : term) : result string :=
  match t with
  | Literal v => Ok v
  | _ =>
      match present st (term_name t) with
      | Some v =>
          let sl := if term_slash t then "/" else EmptyString in
          if term_plural t then
            (* .map(encodeURIComponent).join("&") *)
            match v with
            | Arr l =>
                bind (mapM (fun p => encodeURIComponent (prim_to_string p)) l)
                     (fun encoded => Ok (sl +:+ join "&" encoded))
            | Prim _ => Throw TypeError
            end
          else Ok (sl +:+ to_string v)
      | None =>
          Ok (if term_plural t && term_slash t then "/" else EmptyString)
      end
  end.

(** The body of the loop over the routes of the destination: it
    returns in every case. *)
Definition stringify_route (r : route) (st : state) : result string :=
  bind (mapM (stringify_term st) (route_terms r)) (fun parts =>
    Ok (join EmptyString parts
        +:+ (if truthy (remainingPath st) then prim_to_string (remainingPath st)
             else EmptyString))).

(** [stringify(state)]: the loop runs from the last route of the
    destination down and returns in its first round; over no route it
    falls through to undefined ([Ok None]). *)
Definition stringify (r : router) (st : state) : result (option string) :=
  match backTable r !! st_destination st with
  | None => Throw (NoRoutes (st_destination st))
  | Some tbl =>
      match rev tbl with
      | route :: _ => bind (stringify_route route st) (fun s => Ok (Some s))
      | [] => Ok None
      end
  end.

(** *** [observePath]

    The first pass over a state, in which every callback runs with the
    current value of what it observes.  The result lists what [emit] is
    called with, [None] for the call without an argument. *)

(** Modelled from the spec: [observeProperty] of frb, a library outside
    this repository.  It invokes the callback with the current value of
    the property at once, and again at every change. *)
Definition observeProperty {A B} (current : A) (callback : A -> B) : B :=
  callback current.

(** Modelled from the spec: [observeRangeChange] of frb.  It invokes
    the callback at every change of the content of the array and, as
    the tests of [observeStringify] expect, at once with the current
    content.  A value that is no array has no content to observe:
    nothing is installed and nothing is called. *)
Definition observeRangeChange {B} (collection : value)
    (callback : unit -> result (list B)) : result (list B) :=
  match collection with
  | Arr _ => callback tt
  | Prim _ => Ok []
  end.

(** The callback of [names.map]; [term] is [terms[name]]. *)
Definition changeParameter (r : router) (st : state) (nm : string) (term : variable)
    : result (list (option string)) :=
  if String.eqb nm EmptyString then Ok [None]
  else
    observeProperty (present st nm) (fun value =>
      match value with
      | Some collection =>
          if plural term
          then observeRangeChange collection
                 (fun _ => bind (stringify r st) (fun p => Ok [p]))
          else bind (stringify r st) (fun p => Ok [p])
      | None => bind (stringify r st) (fun p => Ok [p])
      end).

Definition changeDestination (r : router) (st : state) (destination : string)
    : result (list (option string)) :=
  match termsForDestination r !! destination with
  | None => Ok [None]
  | Some terms =>
      bind (mapM (fun '(nm, term) => changeParameter r st nm term) (map_to_list terms))
           (fun emitted => Ok (concat emitted))
  end.

Definition observePath (r : router) (st : state) : result (list (option string)) :=
  observeProperty (st_parameters st) (fun parameters =>
    observeProperty (remainingPath st) (fun remainingPath =>
      observeProperty (st_destination st) (changeDestination r st))).

(** *** The object [parse] returns, read by its properties

    [match] builds [{destination, parameters, path}]; any other property
    reads as undefined. *)
Inductive jsval :=
| JPrim (p : prim)
| JParameters (ps : gmap string value).

Definition property (res : ParseResult) (key : string) : jsval :=
  if String.eqb key "destination" then JPrim (Str (res_destination res))
  else if String.eqb key "parameters" then JParameters (parameters res)
  else if String.eqb key "path" then JPrim (path res)
  else JPrim Undefined.

(** The object as the state a [RouteController] holds after
    [self.state = router.parse(path)], read the way [stringify] and
    [observePath] read a state. *)
Definition state_of_result (res : ParseResult) : state := {|
  st_destination := res_destination res;
  st_parameters := Some (parameters res);
  remainingPath :=
    match property res "remainingPath" with
    | JPrim p => p
    | JParameters _ => Undefined
    end
|}.

(** *** The route table of the test suite *)

Definition test_routes : list (string * string) :=
  [ ("photos/+photoIds&", "photos");
    ("photos.:format", "photo-format");
    ("photo/+photoId", "photo");
    ("photo/+photoId/comments/+commentId", "photo-comment");
    ("notes/:noteId?", "notes");
    ("notes/:noteId?/detail", "notes-detail");
    ("a/:/b/:", "ab");
    ("::", "colon") ].

Definition test_router : router := default no_routes (Router "/" test_routes false).

End Router.

(** ** The location controller

    [core/location-controller.js]: what [_computeRemainingPath] reads
    out of the window location, what [handlePathPropertyChange] writes
    back, and [handleEvent].  The window is a parameter: its location,
    as the string it converts to, and whether it has a history.  The
    listener that calls [handlePathPropertyChange] when [path] is
    assigned is not followed. *)

Module LocationController.

(** The expression [hashbang]: a hash, a bang, a slash, then in a group
    any run of [.]. *)
Definition hashbang : RegExp.t :=
  {| source := Seq (Chr "#") (Seq (Chr "!") (Seq (Chr "/") (Group (Star Dot))));
     ignoreCase := false |}.

(** [s.indexOf(c)] for a one-character [c]; [None] is -1. *)
Fixpoint indexOf (c : ascii) (s : string) : option nat :=
  match s with
  | EmptyString => None
  | String a s' => if Ascii.eqb a c then Some 0 else S <$> indexOf c s'
  end.

Inductive mode := Base | Hash.

(** The properties of the controller the three methods use; [None] is
    null. *)
Record t := {
  path : option string;
  query : option string;
  base : option string;      (* _base *)
  mode_ : mode;              (* _mode *)
  popstate : bool            (* _popstate *)
}.

Definition set_location (this : t) (query' path' : string) : t :=
  {| path := Some path'; query := Some query'; base := base this;
     mode_ := mode_ this; popstate := popstate this |}.

(** [_computeRemainingPath()], on the window location [location]. *)
Definition computeRemainingPath (location : string) (this : t) : t :=
  match exec hashbang location with
  | Some m =>
      match mjoin (m !! 1) with
      | Some p =>
          match indexOf "?" p with
          | Some queryIndex =>
              set_location this (str_drop (queryIndex + 1) p) (str_take queryIndex p)
          | None => set_location this EmptyString p
          end
      | None => this   (* the group takes part in every match *)
      end
  | None =>
      match base this with
      | Some b =>
          if String.eqb b EmptyString then this   (* the empty string is falsy *)
          else if Nat.ltb (String.length location) (String.length b) then this
          else if negb (String.eqb (str_take (String.length b) location) b) then this
          else
            let remaining := str_drop (String.length b) location in
            let remaining :=
              match remaining with
              | String "/" rest => rest
              | _ => remaining
              end in
            (* [location] is a string here: its [search] is the method of
               strings, which is truthy and whose property 0 is undefined *)
            set_location this EmptyString remaining
      | None => this
      end
  end.

(** What [handlePathPropertyChange] does to the window. *)
Inductive action :=
| replaceState (url : string)
| set_hash (hash : string).

(** [handlePathPropertyChange(path)]; [history] tells whether
    [window.history] is there. *)
Definition handlePathPropertyChange (history : bool) (this : t) (p : option string)
    : option action :=
  match p with
  | None => None
  | Some p =>
      let p := match mode_ this with
               | Hash => "#!/" +:+ p
               | Base => p
               end in
      if history then Some (replaceState (default "null" (base this) +:+ p))
      else Some (set_hash p)
  end.

Inductive event_type := Popstate | Hashchange | Other.

(** [handleEvent(event)], on the window location at the event. *)
Definition handleEvent (type : event_type) (location : string) (this : t) : t :=
  match type with
  | Popstate =>
      let this := computeRemainingPath location this in
      {| path := path this; query := query this; base := base this;
         mode_ := mode_ this; popstate := true |}
  | Hashchange =>
      if popstate this then this else computeRemainingPath location this
  | Other => this
  end.

End LocationController.

(** * The notions of the properties *)

Import Router.

(** ** The constructor's tables *)

(** The fifth route of the test table. *)
Definition notes_route : route :=
  default {| destination := EmptyString; route_variables := []; route_terms := [];
             regExp := expression |}
    (compile "/notes/:noteId?" "notes" false).

(** ** Generating: the last route of the destination *)

(** The names of the properties of [Object.prototype] (ECMA-262, with
    its annex B).  An object used as a map reads under such a name what
    it inherits when it has no property of its own, and an assignment
    under [__proto__] makes no property at all: the finite maps of the
    model hold the own properties only, so the properties below that
    read or write a key not known to be there leave these names out. *)
Definition Object_prototype : list string :=
  [ "constructor"; "hasOwnProperty"; "isPrototypeOf"; "propertyIsEnumerable";
    "toLocaleString"; "toString"; "valueOf"; "__proto__";
    "__defineGetter__"; "__defineSetter__"; "__lookupGetter__";
    "__lookupSetter__" ].

(** A number of the model that is the number of the program: below
    2^53 in absolute value, where the integers are doubles and
    [String] writes all their digits. *)
Definition small (p : prim) : Prop :=
  match p with
  | Num (Int z) => (Z.abs z < 2 ^ 53)%Z
  | _ => True
  end.

Definition small_value (v : value) : Prop :=
  match v with
  | Prim p => small p
  | Arr l => Forall small l
  end.

(** A text [parseInt] reads as a number of the program. *)
Definition exact (t : string) : Prop := small (Num (parseInt t)).

(** The parameters the terms of a route name, where present, hold no
    number beyond 2^53. *)
Definition small_values (ρ : route) (st : state) : Prop :=
  ∀ t v, t ∈ route_terms ρ → present st (term_name t) = Some v → small_value v.


(** An element [encodeURIComponent] takes: its string has no lone
    surrogate. *)
Definition encodable (p : prim) : Prop := utf8 (prim_to_string p) = true.

(** The parameters of the plural terms, where present, are arrays, and
    arrays of elements [encodeURIComponent] takes: anything but an array
    has no [map] method. *)
Definition plural_arrays (ρ : route) (st : state) : Prop :=
  ∀ t v, t ∈ route_terms ρ → term_plural t = true →
         present st (term_name t) = Some v → ∃ l, v = Arr l ∧ Forall encodable l.

(** The text of an element of a plural value in a path. *)
Definition element_text (p : prim) : string := escape_bytes (prim_to_string p).

(** A state of the destination ["photos"] of the test table whose
    [photoIds] is a number, not an array. *)
Definition photo_number : state :=
  {| st_destination := "photos";
     st_parameters := Some {[ "photoIds" := Prim (Num (Int 10)) ]};
     remainingPath := Undefined |}.

(** Two routes for one destination, and a state the first of them could
    render as well. *)
Definition two_routes : list (string * string) :=
  [("item/:id", "item"); ("items/:id/:tab?", "item")].

(** ** Plural variables *)

Definition photos_paths : list string := ["/photos"; "/photos/"; "/photos/10&20&30"].

Definition photos_result (ids : list Z) : ParseResult := {|
  res_destination := "photos";
  parameters := {[ "photoIds" := Arr ((λ z, Num (Int z)) <$> ids) ]};
  path := Undefined
|}.

(** ** What [stringify] emits for a variable *)

Definition notes_state (ps : gmap string value) : state :=
  {| st_destination := "notes"; st_parameters := Some ps; remainingPath := Undefined |}.

(** What the state holds under a key of its parameters: nothing when
    [state.parameters] is null or undefined, or has no such property
    of its own. *)
Definition held (st : state) (key : string) : option value :=
  match st_parameters st with
  | Some ps => ps !! key
  | None => None
  end.

(** What a term gives to the path, in the words of the claim: a literal
    its text; a variable whose parameter is neither null nor undefined
    its slash and the string of the value, for a plural variable the
    elements of the array, percent-encoded and joined by [&]; a plural
    variable without a value its slash alone; a singular variable
    without a value nothing. *)
Definition emitted (st : state) (t : term) : string :=
  match t with
  | Literal value => value
  | _ =>
      let sl := if term_slash t then "/" else EmptyString in
      match held st (term_name t) with
      | None | Some (Prim Undefined) | Some (Prim Null) =>
          if term_plural t then sl else EmptyString
      | Some v =>
          sl +:+ (if term_plural t
                  then match v with
                       | Arr l => join "&" (element_text <$> l)
                       | Prim _ => EmptyString
                       end
                  else to_string v)
      end
  end.

(** What [stringify] appends behind the terms. *)
Definition remaining_text (st : state) : string :=
  if truthy (remainingPath st) then prim_to_string (remainingPath st) else EmptyString.

(** ** Percent encoding: plural against singular *)

Definition tag_routes : list (string * string) :=
  [("tags/:tags&", "tags"); ("tag/:tag", "tag")].

Definition tag_router : router := default no_routes (Router "/" tag_routes false).


(** ** The remainder of a path *)

Definition docs_router : router := default no_routes (Router "/" [("docs/...", "docs")] false).

Definition docs_result : ParseResult :=
  {| res_destination := "docs"; parameters := ∅; path := Str "/a%20b/c" |}.

(** ** Case sensitivity *)

Definition photos_router : router :=
  default no_routes (Router "/" [("photos", "photos")] true).

Definition photos_regexp (insensitive : option bool) : RegExp.t :=
  default expression ((λ c, c.1.1) <$> compileRegExp "/photos" insensitive).

(** ** What [compile] builds *)






(** ** The matcher on the fragments of a route *)

(** The text starts with no character of the set, if it starts at all. *)
Definition head_rejected (acc : ascii → bool) (s : string) : Prop :=
  match s with
  | EmptyString => True
  | String c _ => acc c = false
  end.

(** A matcher of one character of a set. *)
Definition char_matcher (m : string → captures → cont → option mstate)
    (acc : ascii → bool) : Prop :=
  ∀ s caps k,
    m s caps k = match s with
                 | String c s' => if acc c then k s' caps else None
                 | EmptyString => None
                 end.

(** An expression without groups that matches the text [value], case
    for case, and nothing else of what follows it. *)
Definition matches_exactly (value : string) (r : regex) : Prop :=
  ngroups r = 0
  ∧ ∀ n0 idx rest caps k, rmatch false n0 r idx (value +:+ rest) caps k = k rest caps.

(** *** Singular variables *)






(** *** Plural variables *)










(** ** What a match leaves in the captures *)

(** The captures of the groups before [idx] are as they were. *)
Definition frame (idx : nat) (caps caps' : captures) : Prop :=
  ∀ i, i < idx → caps' !! i = caps !! i.

(** A matcher succeeds only through its continuation, called on what
    is left of its input, and leaves the groups before [idx] alone. *)
Definition sound (idx : nat) (m : string → captures → cont → option mstate) : Prop :=
  ∀ s caps k res,
    m s caps k = Some res →
    ∃ s' caps', k s' caps' = Some res ∧ frame idx caps caps'
                ∧ String.length s' ≤ String.length s.

(** *** The fuel of the loops is enough *)

(** A matcher looks at its continuation only on what is left of its
    input. *)
Definition local (m : string → captures → cont → option mstate) : Prop :=
  ∀ s caps k1 k2,
    (∀ s' caps', String.length s' ≤ String.length s → k1 s' caps' = k2 s' caps') →
    m s caps k1 = m s caps k2.

(** ** The tokens of [expression] *)

(** The slash of a token is empty or one slash. *)
Definition slash_ok (p : piece) : Prop :=
  match p with
  | Matched m => arg m 1 = Some EmptyString ∨ arg m 1 = Some "/"
  | Unmatched _ => True
  end.

(** ** Routes of literals and variables *)

(** A literal, or a variable that is no remainder. *)
Definition covered (t : term) : Prop :=
  match t with
  | Literal _ => True
  | Var v => prefix v ≠ "..."
  | Path => False
  end.




(** ** Splitting and percent encoding *)



(** ** The round trip of one route *)


(** No U+2028 and no U+2029 in the text: the line terminators outside
    ASCII, which [Dot] does not tell from other characters. *)
Fixpoint separator_free (s : string) : bool :=
  match s with
  | EmptyString => true
  | String a s' =>
      negb ((code a =? 226)%N
            && match s' with
               | String b (String c _) =>
                   (code b =? 128)%N && ((code c =? 168) || (code c =? 169))%N
               | _ => false
               end)
      && separator_free s'
  end.









(** ** The round trip through a table *)

Definition plain_state (d : string) (P : gmap string value) : state :=
  {| st_destination := d; st_parameters := Some P; remainingPath := Undefined |}.

Definition comment_parameters : gmap string value :=
  <["photoId" := Prim (Num (Int 11))]> (<["commentId" := Prim (Num (Int 0))]> ∅).

Definition comment_route : route :=
  default notes_route (compile "/photo/+photoId/comments/+commentId" "photo-comment" false).









(** ** The tables of the constructor, in full *)

(** The routes of a destination, in table order. *)
Definition routes_for (d : string) (tbl : list route) : list route :=
  filter (λ ρ, destination ρ = d) tbl.

(** What the loop over [variables] leaves in [terms]: under every name
    the last variable of that name. *)
Definition terms_for (ρs : list route) : gmap string variable :=
  foldl (λ ts v, <[name v := v]> ts) ∅ (ρs ≫= route_variables).

(** The two tables by destination hold what the routes of [table] say. *)
Definition tables_agree (r : router) : Prop :=
  ∀ d, backTable r !! d
       = match routes_for d (table r) with
         | [] => None
         | ρs => Some ρs
         end
       ∧ termsForDestination r !! d
         = match routes_for d (table r) with
           | [] => None
           | ρs => Some (terms_for ρs)
           end.
(** ** What [match] binds, in full *)

(** The variables whose round writes a key of [parameters]: all but the
    singular remainder. *)
Definition binds (v : variable) : bool :=
  plural v || negb (String.eqb (prefix v) "...").

(** The variable that has the last word on a key. *)
Definition binder (k : string) (vs : list variable) : option variable :=
  last (filter (λ v, name v = k ∧ binds v = true) vs).

(** The kind of value a variable binds: a number or a string, or an
    array of them. *)
Definition shaped (v : variable) (val : value) : Prop :=
  if plural v then
    ∃ l, val = Arr l
         ∧ Forall (λ p, if numeric v then ∃ n, p = Num n else ∃ s, p = Str s) l
  else if numeric v then ∃ n, val = Prim (Num n)
  else ∃ s, val = Prim (Str s).

(** A name [observePath] emits for in its first pass: all but the name
    of a plural variable whose parameter is there and is no array, a
    value without a content to observe. *)
Definition observed (st : state) (entry : string * variable) : bool :=
  negb (plural entry.2
        && match present st entry.1 with
           | Some (Prim _) => true
           | _ => false
           end).


(** ** What [compile] builds, in full *)

(** The variables among the terms, in order. *)
Definition vars_of (ts : list term) : list variable :=
  omap (λ t, match t with Var v => Some v | _ => None end) ts.

(** What [callback] gives every variable it builds. *)
Definition well_formed (v : variable) : Prop :=
  name v ≠ EmptyString
  ∧ prefix v ≠ EmptyString
  ∧ numeric v = String.eqb (prefix v) "+"
  ∧ (optional v = true → plural v = false).

(** A matcher leaves as many captures as it found. *)
Definition keeps (m : string → captures → cont → option mstate) : Prop :=
  ∀ s caps k res,
    m s caps k = Some res →
    ∃ s' caps', k s' caps' = Some res ∧ length caps' = length caps.
(** ** Routes that end in a remainder *)



(** Literals and variables, then the remainder and the path term. *)
Inductive ends_in_rest : list term → Prop :=
| rest_last v : ends_in_rest [Var v; Path]
| rest_cons t ts : covered t → ends_in_rest ts → ends_in_rest (t :: ts).


(** A text [.] takes to its end: no line terminator in it. *)
Definition one_line (s : string) : Prop :=
  str_forallb (λ c, negb (is_line_terminator c)) s = true ∧ separator_free s = true.









(** ** The window location *)

(** No hash in the text. *)
Definition hashless (s : string) : Prop :=
  str_forallb (λ c, negb (Ascii.eqb c "#")) s = true.

(** No question mark in the text. *)
Definition markless (s : string) : Prop :=
  str_forallb (λ c, negb (Ascii.eqb c "?")) s = true.

(** A controller in hash mode, as the constructor leaves it before it
    first reads the location. *)
Definition hash_controller (b : string) : LocationController.t :=
  {| LocationController.path := None; LocationController.query := None;
     LocationController.base := Some b; LocationController.mode_ := LocationController.Hash;
     LocationController.popstate := false |}.

Definition base_controller (b : string) : LocationController.t :=
  {| LocationController.path := None; LocationController.query := None;
     LocationController.base := Some b; LocationController.mode_ := LocationController.Base;
     LocationController.popstate := false |}.

(** ** The tokens of [expression], in full *)

(** The four alternatives of [expression] behind the slash: the escape,
    the variable, the special and the literal. *)
Definition escape_alt : regex :=
  Seq (Chr ":") (Group (Class false [CChar ":"; CChar "*"; CChar "+"; CChar "&"])).

Definition variable_alt : regex :=
  Seq (Group (Alt (Chr ":")
             (Alt (Chr "*")
             (Alt (Chr "+")
                  (Seq (Chr ".") (Seq (Chr ".") (Chr ".")))))))
      (Seq (Group (Star Word))
           (Group (Alt (Class false [CChar "?"; CChar "&"]) Empty))).

Definition special_alt : regex :=
  Group (Class false
           [CChar "-"; CChar "["; CChar "]"; CChar "{"; CChar "}";
            CChar "("; CChar ")"; CChar "*"; CChar "+"; CChar ".";
            CChar "^"; CChar "$"; CChar "|"; CChar ","; CChar "#";
            CSpace]).

Definition literal_alt : regex :=
  Group (Plus (Class true
                 [CChar "/"; CChar ":"; CChar "*"; CChar "+"; CChar "."; CChar "&"])).

(** An expression that can match the empty text. *)
Fixpoint nullable (r : regex) : bool :=
  match r with
  | Empty | Bol | Eol => true
  | Chr _ | Dot | Class _ _ => false
  | Seq r1 r2 => nullable r1 && nullable r2
  | Alt r1 r2 => nullable r1 || nullable r2
  | Repeat min max r1 =>
      Nat.eqb min 0 || nullable r1
      || match max with
         | Some 0 => true
         | _ => false
         end
  | Group r1 | NoCap r1 => nullable r1
  end.

(** A matcher succeeds only on less than its input. *)
Definition consumes (m : string → captures → cont → option mstate) : Prop :=
  ∀ s caps k res,
    m s caps k = Some res →
    ∃ s' caps', k s' caps' = Some res ∧ String.length s' < String.length s.

(** A continuation that takes whatever it is given. *)
Definition total (k : cont) : Prop := ∀ s caps, is_Some (k s caps).
(** What a piece of a pattern is: a character outside the tokens is a
    slash or an ampersand, and a token is not empty. *)
Definition piece_ok (p : piece) : Prop :=
  match p with
  | Unmatched c => c = "/"%char ∨ c = "&"%char
  | Matched m => ∃ a t, m !! 0 = Some (Some (String a t))
  end.

(** ** Patterns without syntax characters in their literal runs *)

(** No syntax character of regular expressions in the text. *)
Definition syntax_free (s : string) : bool := negb (str_existsb is_syntax s).

(** The literal run of a token, where it has one, is free of syntax
    characters. *)
Definition plain_piece (p : piece) : bool :=
  match p with
  | Matched m => syntax_free (or_empty (arg m 7))
  | Unmatched _ => true
  end.

(** A pattern whose literal runs hold none of the characters
    [^ $ \ . * + ? ( ) [ ] { } |].  [compileRegExp] copies a literal run
    into the source of the expression as it is, where a syntax character
    is read as syntax: the patterns of the model are the plain ones. *)
Definition plain (pattern : string) : bool :=
  forallb plain_piece (scan expression pattern).

(** A matcher leaves the captures from [top] on alone. *)
Definition above (top : nat) (m : string → captures → cont → option mstate) : Prop :=
  ∀ s caps k res,
    m s caps k = Some res →
    ∃ s' caps', k s' caps' = Some res ∧ ∀ i, top ≤ i → caps' !! i = caps !! i.

(** A capture that is absent, or one character that is no word
    character. *)
Definition mark (c : option string) : Prop :=
  is_truthy c = true → ∃ a, c = Some (String a EmptyString) ∧ is_word a = false.

(** The escape and the special of a token are marks. *)
Definition marked (p : piece) : Prop :=
  match p with
  | Matched m => mark (arg m 2) ∧ mark (arg m 6)
  | Unmatched _ => True
  end.

(** * Properties *)

Local Arguments add_route : simpl never.
Local Arguments bind_variable : simpl never.

(** ** The constructor's tables *)

Section Construction.
Context (pre : string) (insensitive : bool).

Lemma add_route_table acc entry acc' :
  add_route pre insensitive acc entry = Some acc' →
  ∃ ρ, compile (pre +:+ entry.1) entry.2 insensitive = Some ρ
       ∧ table acc' = table acc ++ [ρ]
       ∧ backTable acc' =
           <[entry.2 := default [] (backTable acc !! entry.2) ++ [ρ]]> (backTable acc)
       ∧ dom (termsForDestination acc') = {[entry.2]} ∪ dom (termsForDestination acc).
Proof.
  destruct entry as [p d]; unfold add_route; simpl.
  destruct (compile (pre +:+ p) d insensitive) as [ρ|]; [|done].
  intros [= <-]; exists ρ; simpl. by rewrite dom_insert_L.
Qed.

(** The routes of a destination no later entry names are those the
    accumulator holds; so are its terms. *)
Lemma add_routes_other routes : ∀ acc r d,
  add_routes pre insensitive acc routes = Some r →
  d ∉ routes.*2 →
  backTable r !! d = backTable acc !! d
  ∧ (d ∈ dom (termsForDestination r) ↔ d ∈ dom (termsForDestination acc)).
Proof.
  induction routes as [|e routes IH]; intros acc r d Hr Hd; simpl in *.
  - by injection Hr as <-.
  - destruct (add_route pre insensitive acc e) as [acc'|] eqn:He; [|done].
    apply not_elem_of_cons in Hd as [Hne Hd].
    destruct (IH _ _ _ Hr Hd) as [-> ->].
    destruct (add_route_table _ _ _ He) as (ρ & _ & _ & -> & ->).
    rewrite lookup_insert_ne; [|done]. split; [done|].
    rewrite elem_of_union, elem_of_singleton.
    split; [intros [Heq|Hin]; [by destruct Hne|done]|by right].
Qed.

(** A destination some entry names has routes, the last of them
    compiled from its last entry, and it has terms. *)
Lemma add_routes_last routes1 p d routes2 acc r :
  add_routes pre insensitive acc (routes1 ++ (p, d) :: routes2) = Some r →
  d ∉ routes2.*2 →
  ∃ ρ tbl, compile (pre +:+ p) d insensitive = Some ρ
           ∧ backTable r !! d = Some (tbl ++ [ρ])
           ∧ d ∈ dom (termsForDestination r).
Proof.
  revert acc. induction routes1 as [|e routes1 IH]; intros acc Hr Hd; simpl in *.
  - destruct (add_route pre insensitive acc (p, d)) as [acc'|] eqn:He; [|done].
    destruct (add_routes_other _ _ _ _ Hr Hd) as [Hb Ht].
    destruct (add_route_table _ _ _ He) as (ρ & Hc & _ & Hb' & Ht'); simpl in *.
    exists ρ, (default [] (backTable acc !! d)). split; [done|].
    rewrite Hb, Hb', lookup_insert_eq. split; [done|].
    apply Ht. rewrite Ht'. apply elem_of_union. left. by apply elem_of_singleton.
  - destruct (add_route pre insensitive acc e) as [acc'|]; [|done]. eauto.
Qed.

(** The table lists the compiled routes in the order of the entries. *)
Lemma add_routes_table routes : ∀ acc r,
  add_routes pre insensitive acc routes = Some r →
  ∃ ρs, table r = table acc ++ ρs
        ∧ Forall2 (λ e ρ, compile (pre +:+ e.1) e.2 insensitive = Some ρ) routes ρs.
Proof.
  induction routes as [|e routes IH]; intros acc r Hr; simpl in *.
  - injection Hr as <-. exists []. by rewrite app_nil_r.
  - destruct (add_route pre insensitive acc e) as [acc'|] eqn:He; [|done].
    destruct (IH _ _ Hr) as (ρs & -> & HF).
    destruct (add_route_table _ _ _ He) as (ρ & Hc & -> & _).
    exists (ρ :: ρs). rewrite <- app_assoc. split; [done|]. by constructor.
Qed.
End Construction.



Lemma test_router_built : Router "/" test_routes false = Some test_router.
Proof. vm_compute. reflexivity. Qed.

(** ** Parsing: the first match in table order *)

Lemma parse_table_first before ρ after p :
  (∀ ρ', ρ' ∈ before → route_match ρ' p = Ok None) →
  route_match ρ p ≠ Ok None →
  parse_table (before ++ ρ :: after) p = route_match ρ p.
Proof.
  intros Hbefore Hρ. induction before as [|ρ' before IH]; simpl.
  - destruct (route_match ρ p) as [[res|]|e]; simpl; congruence.
  - rewrite (Hbefore ρ') by left. simpl. apply IH.
    intros ρ'' Hin. apply Hbefore. by right.
Qed.





(** ** Generating: the last route of the destination *)

Lemma compile_destination pattern d insensitive ρ :
  compile pattern d insensitive = Some ρ → destination ρ = d.
Proof.
  unfold compile. destruct (compileRegExp pattern None) as [[[re vs] ts]|]; [|done].
  by intros [= <-].
Qed.


Lemma mapM_encode l :
  Forall encodable l →
  mapM (λ p, encodeURIComponent (prim_to_string p)) l = Ok (element_text <$> l).
Proof.
  induction 1 as [|p l Hp _ IH]; simpl; [done|].
  unfold encodeURIComponent at 1. unfold encodable in Hp. rewrite Hp. simpl.
  by rewrite IH.
Qed.



Lemma mapM_throw {A B} (f : A → result B) (l : list A) e :
  mapM f l = Throw e → ∃ a, a ∈ l ∧ f a = Throw e.
Proof.
  induction l as [|a l IH]; simpl; [done|].
  destruct (f a) as [b|e'] eqn:Ha; simpl.
  - destruct (mapM f l) as [bs|e']; simpl; [done|].
    intros [= ->]. destruct IH as (a' & Hin & Ha'); [done|].
    exists a'. split; [by right|done].
  - intros [= ->]. exists a. split; [by left|done].
Qed.


Lemma stringify_last r st tbl ρ :
  backTable r !! st_destination st = Some (tbl ++ [ρ]) →
  stringify r st = bind (stringify_route ρ st) (λ s, Ok (Some s)).
Proof. intros Hb. unfold stringify. by rewrite Hb, rev_app_distr. Qed.

(** C3. [stringify] writes the path from the route compiled from the
    last entry registered for the destination, whatever the entries
    before it and whatever the parameters. *)
Theorem stringify_uses_last_route pre routes1 p d routes2 insensitive r st :
  Router pre (routes1 ++ (p, d) :: routes2) insensitive = Some r →
  d ∉ routes2.*2 →
  st_destination st = d →
  ∃ ρ, compile (pre +:+ p) d insensitive = Some ρ
       ∧ stringify r st = bind (stringify_route ρ st) (λ s, Ok (Some s)).
Proof.
  intros Hr Hd Hst.
  destruct (add_routes_last _ _ _ _ _ _ _ _ Hr Hd) as (ρ & tbl & Hc & Hb & _).
  exists ρ. split; [done|]. apply (stringify_last _ _ tbl). by rewrite Hst.
Qed.

Lemma stringify_uses_last_route_witness :
  ∃ r, Router "/" two_routes false = Some r
       ∧ stringify r {| st_destination := "item";
                        st_parameters := Some {[ "id" := Prim (Str "7") ]};
                        remainingPath := Undefined |}
         = Ok (Some "/items/7").
Proof.
  eexists. split; [by vm_compute|].
  edestruct (stringify_uses_last_route "/" [("item/:id", "item")] "items/:id/:tab?"
               "item" [] false) as (ρ & Hc & ->).
  - by vm_compute.
  - apply not_elem_of_nil.
  - reflexivity.
  - vm_compute in Hc. injection Hc as <-. by vm_compute.
Defined.




(** ** Plural variables *)

(** C5. With the route ["photos/+photoIds&"] for ["photos"] under the
    prefix ["/"], and no earlier route matching these paths, ["/photos"]
    and ["/photos/"] parse to an empty [photoIds] and
    ["/photos/10&20&30"] to [[10, 20, 30]]. *)
Theorem plural_cardinality insensitive r ρ before after :
  compile ("/" +:+ "photos/+photoIds&") "photos" insensitive = Some ρ →
  table r = before ++ ρ :: after →
  (∀ ρ' p, ρ' ∈ before → p ∈ photos_paths → route_match ρ' p = Ok None) →
  parse r "/photos" = Ok (Some (photos_result []))
  ∧ parse r "/photos/" = Ok (Some (photos_result []))
  ∧ parse r "/photos/10&20&30" = Ok (Some (photos_result [10; 20; 30]%Z)).
Proof.
  intros Hc Htbl Hbefore. vm_compute in Hc. injection Hc as <-.
  unfold parse. rewrite Htbl.
  repeat split.
  - rewrite parse_table_first; [by vm_compute| |by vm_compute].
    intros ρ' Hin. apply Hbefore; [done|]. by left.
  - rewrite parse_table_first; [by vm_compute| |by vm_compute].
    intros ρ' Hin. apply Hbefore; [done|]. right. by left.
  - rewrite parse_table_first; [by vm_compute| |by vm_compute].
    intros ρ' Hin. apply Hbefore; [done|]. right. right. by left.
Qed.

Lemma plural_cardinality_witness :
  parse test_router "/photos" = Ok (Some (photos_result []))
  ∧ parse test_router "/photos/" = Ok (Some (photos_result []))
  ∧ parse test_router "/photos/10&20&30" = Ok (Some (photos_result [10; 20; 30]%Z)).
Proof.
  eapply (plural_cardinality false test_router _ [] (drop 1 (table test_router))).
  - by vm_compute.
  - by vm_compute.
  - intros ρ' p' Hin. by apply elem_of_nil in Hin.
Defined.

(** ** What [stringify] emits for a variable *)

Lemma present_held st key :
  present st key = match held st key with
                   | Some v => if not_nullish v then Some v else None
                   | None => None
                   end.
Proof. unfold present, held. by destruct (st_parameters st). Qed.

Lemma mapM_fmap {A B} (f : A → result B) (g : A → B) (l : list A) :
  (∀ a, a ∈ l → f a = Ok (g a)) → mapM f l = Ok (g <$> l).
Proof.
  induction l as [|a l IH]; intros Hall; simpl; [done|].
  rewrite (Hall a) by left. simpl. rewrite IH; [done|].
  intros a' Hin. apply Hall. by right.
Qed.

(** One round of the loop over the terms pushes what the claim says. *)
Lemma stringify_term_emitted st t :
  (term_plural t = true →
   ∀ v, present st (term_name t) = Some v → ∃ l, v = Arr l ∧ Forall encodable l) →
  stringify_term st t = Ok (emitted st t).
Proof.
  intros Harr. unfold stringify_term, emitted.
  destruct t as [value|x|]; [done| |].
  - rewrite present_held in *. cbn [term_name term_plural term_slash] in *.
    destruct (held st (name x)) as [v|]; [|by destruct (plural x), (slash x)].
    destruct v as [[| |s|n]|l]; cbn [not_nullish] in *;
      try (by destruct (plural x), (slash x)).
    + destruct (plural x); [|done]. by destruct (Harr eq_refl _ eq_refl) as (l & Hl & _).
    + destruct (plural x); [|done]. by destruct (Harr eq_refl _ eq_refl) as (l & Hl & _).
    + destruct (plural x); [|done].
      destruct (Harr eq_refl _ eq_refl) as (l' & [= <-] & Hl).
      by rewrite (mapM_encode _ Hl).
  - rewrite present_held. cbn [term_name term_plural term_slash].
    destruct (held st "undefined") as [[[| |s|n]|l]|]; done.
Qed.

(** The claim C6 as it stands fails: the parameter [photoIds] of
    [photo_number] is neither null nor undefined, and the variable is not
    emitted: [stringify] raises a TypeError. *)
Lemma stringify_presence_counterexample :
  ¬ (is_Some (present photo_number "photoIds") →
     ∃ s, stringify test_router photo_number = Ok (Some s)).
Proof.
  intros Hemit. destruct Hemit as [s Hs]; [by eexists|].
  vm_compute in Hs. discriminate Hs.
Qed.

(** C6, amended.  For the route [stringify] uses, the one compiled from
    the last entry of the destination, whose variables are not named
    like properties of [Object.prototype], and a state whose plural
    parameters, where present, are arrays of elements without lone
    surrogates, and whose numbers are below 2^53: the path is the texts of the terms in order, then the
    remaining path, and a variable gives its text when its parameter is
    neither null nor undefined, whether or not it is truthy: zero and
    the empty string are emitted, after the slash of the variable; a
    singular variable without a value gives nothing, not even its
    slash. *)
Theorem stringify_presence pre routes1 p d routes2 insensitive r ρ st :
  Router pre (routes1 ++ (p, d) :: routes2) insensitive = Some r →
  d ∉ routes2.*2 →
  compile (pre +:+ p) d insensitive = Some ρ →
  st_destination st = d →
  Forall (λ t, term_name t ∉ Object_prototype) (route_terms ρ) →
  plural_arrays ρ st →
  small_values ρ st →
  stringify r st
  = Ok (Some (join EmptyString (emitted st <$> route_terms ρ) +:+ remaining_text st)).
Proof.
  intros Hr Hd Hc Hst _ Harr _.
  destruct (add_routes_last _ _ _ _ _ _ _ _ Hr Hd) as (ρ0 & tbl & Hc0 & Hb & _).
  rewrite Hc in Hc0. injection Hc0 as <-.
  rewrite (stringify_last _ _ tbl ρ) by (by rewrite Hst).
  unfold stringify_route.
  rewrite (mapM_fmap _ (emitted st)); [done|].
  intros t Hin. apply stringify_term_emitted. intros Hp v Hv. by apply (Harr t).
Qed.

Lemma stringify_presence_witness :
  stringify test_router (notes_state ∅) = Ok (Some "/notes")
  ∧ stringify test_router (notes_state {[ "noteId" := Prim (Num (Int 0)) ]})
    = Ok (Some "/notes/0")
  ∧ stringify test_router (notes_state {[ "noteId" := Prim (Str EmptyString) ]})
    = Ok (Some "/notes/").
Proof.
  assert (Hterms : route_terms notes_route
    = [Literal "/notes";
       Var {| prefix := ":"; name := "noteId"; numeric := false; optional := true;
              plural := false; slash := true |}]) by (vm_compute; reflexivity).
  assert (Hall : ∀ ps,
    small_values notes_route (notes_state ps) →
    stringify test_router (notes_state ps)
    = Ok (Some (join EmptyString (emitted (notes_state ps) <$> route_terms notes_route)
                +:+ remaining_text (notes_state ps)))).
  { intros ps Hsmall.
    apply (stringify_presence "/"
             [("photos/+photoIds&", "photos"); ("photos.:format", "photo-format");
              ("photo/+photoId", "photo");
              ("photo/+photoId/comments/+commentId", "photo-comment")]
             "notes/:noteId?" "notes"
             [("notes/:noteId?/detail", "notes-detail"); ("a/:/b/:", "ab");
              ("::", "colon")]
             false test_router notes_route (notes_state ps)).
    - vm_compute. reflexivity.
    - apply (bool_decide_unpack _). vm_compute. reflexivity.
    - vm_compute. reflexivity.
    - reflexivity.
    - rewrite Hterms. apply (bool_decide_unpack _). vm_compute. reflexivity.
    - intros t v Ht Hp. rewrite Hterms in Ht.
      repeat (apply elem_of_cons in Ht as [->|Ht]; [discriminate Hp|]).
      by apply elem_of_nil in Ht.
    - exact Hsmall. }
  assert (Hsmall : ∀ ps,
    (∀ v, ps !! "undefined" = Some v → small_value v) →
    (∀ v, ps !! "noteId" = Some v → small_value v) →
    small_values notes_route (notes_state ps)).
  { intros ps Hu Hn t v Ht Hv. rewrite Hterms in Ht.
    unfold present in Hv. simpl in Hv.
    apply elem_of_cons in Ht as [->|Ht].
    { simpl in Hv. destruct (ps !! "undefined") as [w|] eqn:Hw; [|done].
      destruct (not_nullish w); [|done]. injection Hv as <-. by apply Hu. }
    apply elem_of_cons in Ht as [->|Ht]; [|by apply elem_of_nil in Ht].
    simpl in Hv. destruct (ps !! "noteId") as [w|] eqn:Hw; [|done].
    destruct (not_nullish w); [|done]. injection Hv as <-. by apply Hn. }
  split; [|split].
  - rewrite Hall, Hterms; [vm_compute; reflexivity|].
    apply Hsmall; intros v Hv; by rewrite lookup_empty in Hv.
  - rewrite Hall, Hterms; [vm_compute; reflexivity|].
    apply Hsmall; intros v Hv.
    + by rewrite lookup_singleton_ne in Hv.
    + rewrite lookup_singleton_eq in Hv. injection Hv as <-. simpl. lia.
  - rewrite Hall, Hterms; [vm_compute; reflexivity|].
    apply Hsmall; intros v Hv.
    + by rewrite lookup_singleton_ne in Hv.
    + rewrite lookup_singleton_eq in Hv. by injection Hv as <-.
Defined.

(** ** The remainder of a path *)

(** C8, at the path ["/docs/a%20b/c"] of the route ["docs/..."]: the
    tail is captured without decoding and kept out of [parameters], but
    the object holds it under [path], and its [remainingPath] reads as
    undefined; written back as a state, the tail is lost. *)
Theorem remainder_stored_under_path :
  parse docs_router "/docs/a%20b/c" = Ok (Some docs_result)
  ∧ property docs_result "path" = JPrim (Str "/a%20b/c")
  ∧ property docs_result "remainingPath" = JPrim Undefined
  ∧ stringify docs_router (state_of_result docs_result) = Ok (Some "/docs").
Proof.
  split; [vm_compute; reflexivity|]. split; [reflexivity|].
  split; [reflexivity|]. vm_compute; reflexivity.
Qed.

(** ** Case sensitivity *)

(** C9, at the table [{"photos": "photos"}] built with the flag set:
    [compileRegExp] honours the flag it is given, but [compile] does not
    hand its own on, so no table matches case-insensitively, whatever
    flag it was built with. *)
Theorem insensitive_flag_dropped :
  (∀ pre routes insensitive,
     Router pre routes insensitive = Router pre routes false)
  ∧ Router "/" [("photos", "photos")] true = Some photos_router
  ∧ parse photos_router "/photos"
    = Ok (Some {| res_destination := "photos"; parameters := ∅; path := Undefined |})
  ∧ parse photos_router "/PHOTOS" = Ok None
  ∧ exec (photos_regexp (Some true)) "/PHOTOS" = Some [Some "/PHOTOS"]
  ∧ exec (photos_regexp None) "/PHOTOS" = None.
Proof.
  split.
  - intros pre routes insensitive. unfold Router.
    generalize no_routes. induction routes as [|e routes IH]; intros acc; [done|].
    simpl. unfold add_route, compile. destruct e as [p d].
    destruct (compileRegExp (pre +:+ p) None) as [[[re vs] ts]|]; [|done].
    apply IH.
  - repeat split; vm_compute; reflexivity.
Qed.

(** ** What [match] binds *)





(** ** What [compile] builds *)







(** ** Strings *)

Lemma app_cons c (s t : string) : String c s +:+ t = String c (s +:+ t).
Proof. reflexivity. Qed.

Lemma app_nil_l_str (s : string) : EmptyString +:+ s = s.
Proof. reflexivity. Qed.

Lemma app_nil_r_str (s : string) : s +:+ EmptyString = s.
Proof. induction s as [|c s IH]; [done|]. by rewrite app_cons, IH. Qed.

Lemma app_assoc_str (s t u : string) : (s +:+ t) +:+ u = s +:+ (t +:+ u).
Proof. induction s as [|c s IH]; [done|]. by rewrite !app_cons, IH. Qed.

Lemma length_app_str (s t : string) :
  String.length (s +:+ t) = String.length s + String.length t.
Proof. induction s as [|c s IH]; [done|]. rewrite app_cons. simpl. by rewrite IH. Qed.



(** ** The matcher on the fragments of a route *)


Lemma char_matcher_dot n0 idx :
  char_matcher (rmatch false n0 Dot idx) (λ c, negb (is_line_terminator c)).
Proof. intros [|c s] caps k; simpl; [done|]. by destruct (is_line_terminator c). Qed.

Section Runs.
Context (m : string → captures → cont → option mstate) (acc : ascii → bool).
Context (Hm : char_matcher m acc) (idx : nat).

(** A starred set stops where the text leaves the set. *)
Lemma star_stop fuel rest caps k :
  head_rejected acc rest →
  RepeatMatcher m idx 0 (S fuel) 0 None rest caps k = k rest caps.
Proof.
  intros Hrest. simpl. rewrite Hm.
  destruct rest as [|c rest]; [done|]. simpl in Hrest. by rewrite Hrest.
Qed.

(** A starred set takes the whole run of the set first. *)
Lemma star_run s : ∀ fuel rest caps k res,
  String.length (s +:+ rest) < fuel →
  str_forallb acc s = true →
  head_rejected acc rest →
  k rest caps = Some res →
  RepeatMatcher m idx 0 fuel 0 None (s +:+ rest) caps k = Some res.
Proof.
  induction s as [|c s IH]; intros fuel rest caps k res Hfuel Hs Hrest Hk.
  - destruct fuel as [|fuel]; [simpl in Hfuel; lia|].
    rewrite app_nil_l_str, star_stop; done.
  - destruct fuel as [|fuel]; [simpl in Hfuel; lia|].
    simpl in Hs. apply andb_true_iff in Hs as [Hc Hs].
    rewrite app_cons in *. simpl in Hfuel. simpl. rewrite Hm, Hc.
    rewrite (proj2 (Nat.eqb_neq _ _)) by lia.
    rewrite (IH fuel rest caps k res); [done|lia|done..].
Qed.

End Runs.

Lemma lit_matches value : ∀ r, lit value = Some r → matches_exactly value r.
Proof.
  induction value as [|c value IH]; intros r; simpl.
  - by intros [= <-].
  - destruct (is_syntax c); [done|].
    destruct (lit value) as [r'|]; [|done]. intros [= <-].
    destruct (IH r' eq_refl) as [Hg Hr]. split; [done|].
    intros n0 idx rest caps k. rewrite app_cons. simpl.
    unfold char_eq, canon. rewrite Ascii.eqb_refl. by rewrite Hr.
Qed.

Lemma escaped_matches e r : escaped e = Some r → matches_exactly e r.
Proof.
  destruct e as [|c e]; simpl; [done|].
  destruct (is_word c); [done|].
  destruct (lit e) as [r'|] eqn:He; [|done]. intros [= <-].
  destruct (lit_matches _ _ He) as [Hg Hr]. split; [done|].
  intros n0 idx rest caps k. rewrite app_cons. simpl.
  unfold char_eq, canon. rewrite Ascii.eqb_refl. by rewrite Hr.
Qed.


(** *** Singular variables *)









Lemma opt_unfold m idx cnt fuel s caps k :
  RepeatMatcher m idx cnt (S (S fuel)) 0 (Some 1) s caps k
  = match m s (clear_caps idx cnt caps)
            (λ s' caps', if Nat.eqb (String.length s') (String.length s) then None
                         else k s' caps') with
    | Some z => Some z
    | None => k s caps
    end.
Proof. reflexivity. Qed.



(** *** Plural variables *)





















(** ** What a match leaves in the captures *)

Lemma frame_refl idx caps : frame idx caps caps.
Proof. by intros i Hi. Qed.

Lemma frame_trans idx idx' caps1 caps2 caps3 :
  idx ≤ idx' → frame idx caps1 caps2 → frame idx' caps2 caps3 → frame idx caps1 caps3.
Proof. intros Hle H12 H23 i Hi. rewrite H23 by lia. by apply H12. Qed.

Lemma clear_caps_frame cnt : ∀ idx caps, frame idx caps (clear_caps idx cnt caps).
Proof.
  induction cnt as [|cnt IH]; intros idx caps i Hi; simpl; [done|].
  rewrite list_lookup_insert_ne by lia. apply IH. lia.
Qed.

Lemma RepeatMatcher_sound m idx cnt :
  sound idx m → ∀ fuel min max, sound idx (RepeatMatcher m idx cnt fuel min max).
Proof.
  intros Hm. induction fuel as [|fuel IH]; intros min max s caps k res; simpl; [done|].
  assert (Hstep : ∀ res',
    m s (clear_caps idx cnt caps)
      (λ s' caps',
         if Nat.eqb min 0 && Nat.eqb (String.length s') (String.length s) then None
         else RepeatMatcher m idx cnt fuel (pred min) (pred <$> max) s' caps' k)
    = Some res' →
    ∃ s' caps', k s' caps' = Some res' ∧ frame idx caps caps'
                ∧ String.length s' ≤ String.length s).
  { intros res' Hres. apply Hm in Hres as (s1 & caps1 & Hd & Hf1 & Hl1).
    destruct (Nat.eqb min 0 && _); [done|].
    apply IH in Hd as (s2 & caps2 & Hk & Hf2 & Hl2).
    exists s2, caps2. split; [done|]. split; [|lia].
    eapply frame_trans; [|apply clear_caps_frame|]; [done|].
    eapply frame_trans; [|exact Hf1|exact Hf2]. done. }
  assert (Hdirect : k s caps = Some res →
    ∃ s' caps', k s' caps' = Some res ∧ frame idx caps caps'
                ∧ String.length s' ≤ String.length s).
  { intros Hk. exists s, caps. split; [done|]. split; [apply frame_refl|done]. }
  destruct max as [[|n]|]; [done| |].
  - destruct (Nat.eqb min 0); [|by apply Hstep].
    destruct (m s _ _) as [z|] eqn:Hz; [|done].
    intros [= <-]. by apply Hstep.
  - destruct (Nat.eqb min 0); [|by apply Hstep].
    destruct (m s _ _) as [z|] eqn:Hz; [|done].
    intros [= <-]. by apply Hstep.
Qed.

Lemma rmatch_sound ic n0 r : ∀ idx, sound idx (rmatch ic n0 r idx).
Proof.
  induction r as [|a| |neg items|r1 IH1 r2 IH2|r1 IH1 r2 IH2|min max r1 IH1
                  |r1 IH1|r1 IH1| |];
    intros idx s caps k res; cbn [rmatch].
  - intros Hk. exists s, caps. split; [done|]. split; [apply frame_refl|done].
  - destruct s as [|c s]; [done|]. destruct (char_eq ic a c); [|done].
    intros Hk. exists s, caps. split; [done|]. split; [apply frame_refl|simpl; lia].
  - destruct s as [|c s]; [done|]. destruct (is_line_terminator c); [done|].
    intros Hk. exists s, caps. split; [done|]. split; [apply frame_refl|simpl; lia].
  - destruct s as [|c s]; [done|]. destruct (xorb neg _); [|done].
    intros Hk. exists s, caps. split; [done|]. split; [apply frame_refl|simpl; lia].
  - intros H1. apply IH1 in H1 as (s1 & caps1 & H2 & Hf1 & Hl1).
    apply IH2 in H2 as (s2 & caps2 & Hk & Hf2 & Hl2).
    exists s2, caps2. split; [done|]. split; [|lia].
    eapply frame_trans; [|exact Hf1|exact Hf2]. lia.
  - destruct (rmatch ic n0 r1 idx s caps k) as [z|] eqn:Hz.
    + intros [= <-]. by apply IH1 in Hz.
    + intros H2. apply IH2 in H2 as (s2 & caps2 & Hk & Hf2 & Hl2).
      exists s2, caps2. split; [done|]. split; [|done].
      eapply frame_trans; [|apply frame_refl|exact Hf2]. lia.
  - apply RepeatMatcher_sound, IH1.
  - intros H1. apply IH1 in H1 as (s1 & caps1 & Hk & Hf1 & Hl1).
    eexists _, _. split; [exact Hk|]. split; [|done].
    intros i Hi. rewrite list_lookup_insert_ne by lia. apply Hf1. lia.
  - apply IH1.
  - destruct (Nat.eqb _ _); [|done].
    intros Hk. exists s, caps. split; [done|]. split; [apply frame_refl|done].
  - destruct s; [|done].
    intros Hk. exists EmptyString, caps. split; [done|]. split; [apply frame_refl|done].
Qed.

(** *** The fuel of the loops is enough *)

Lemma RepeatMatcher_local m idx cnt :
  local m → ∀ fuel min max, local (RepeatMatcher m idx cnt fuel min max).
Proof.
  intros Hm. induction fuel as [|fuel IH]; intros min max s caps k1 k2 Hk; simpl; [done|].
  assert (Hd : m s (clear_caps idx cnt caps)
      (λ s' caps',
         if Nat.eqb min 0 && Nat.eqb (String.length s') (String.length s) then None
         else RepeatMatcher m idx cnt fuel (pred min) (pred <$> max) s' caps' k1)
    = m s (clear_caps idx cnt caps)
      (λ s' caps',
         if Nat.eqb min 0 && Nat.eqb (String.length s') (String.length s) then None
         else RepeatMatcher m idx cnt fuel (pred min) (pred <$> max) s' caps' k2)).
  { apply Hm. intros s' caps' Hl. destruct (Nat.eqb min 0 && _); [done|].
    apply IH. intros s'' caps'' Hl'. apply Hk. lia. }
  rewrite Hd, (Hk s caps) by done. done.
Qed.

(** With fuel beyond the minimum and the length of the input, more fuel
    changes nothing: no result is the [None] of the spent fuel. *)
Lemma RepeatMatcher_fuel m idx cnt :
  local m →
  ∀ fuel1 fuel2 min max s caps k,
    min + String.length s < fuel1 → min + String.length s < fuel2 →
    RepeatMatcher m idx cnt fuel1 min max s caps k
    = RepeatMatcher m idx cnt fuel2 min max s caps k.
Proof.
  intros Hm. induction fuel1 as [|fuel1 IH]; intros fuel2 min max s caps k H1 H2; [lia|].
  destruct fuel2 as [|fuel2]; [lia|]. simpl.
  assert (Hd : m s (clear_caps idx cnt caps)
      (λ s' caps',
         if Nat.eqb min 0 && Nat.eqb (String.length s') (String.length s) then None
         else RepeatMatcher m idx cnt fuel1 (pred min) (pred <$> max) s' caps' k)
    = m s (clear_caps idx cnt caps)
      (λ s' caps',
         if Nat.eqb min 0 && Nat.eqb (String.length s') (String.length s) then None
         else RepeatMatcher m idx cnt fuel2 (pred min) (pred <$> max) s' caps' k)).
  { apply Hm. intros s' caps' Hl.
    destruct (Nat.eqb min 0) eqn:Hmin; simpl.
    - apply Nat.eqb_eq in Hmin as ->.
      destruct (Nat.eqb (String.length s') (String.length s)) eqn:Hlen; [done|].
      apply Nat.eqb_neq in Hlen. apply IH; simpl in *; lia.
    - apply Nat.eqb_neq in Hmin. apply IH; lia. }
  by rewrite Hd.
Qed.

Lemma rmatch_local ic n0 r : ∀ idx, local (rmatch ic n0 r idx).
Proof.
  induction r as [|a| |neg items|r1 IH1 r2 IH2|r1 IH1 r2 IH2|min max r1 IH1
                  |r1 IH1|r1 IH1| |];
    intros idx s caps k1 k2 Hk; cbn [rmatch].
  - by apply Hk.
  - destruct s as [|c s]; [done|]. destruct (char_eq ic a c); [|done].
    apply Hk. simpl. lia.
  - destruct s as [|c s]; [done|]. destruct (is_line_terminator c); [done|].
    apply Hk. simpl. lia.
  - destruct s as [|c s]; [done|]. destruct (xorb neg _); [|done].
    apply Hk. simpl. lia.
  - apply IH1. intros s' caps' Hl. apply IH2. intros s'' caps'' Hl'. apply Hk. lia.
  - rewrite (IH1 idx s caps k1 k2 Hk), (IH2 _ s caps k1 k2 Hk). done.
  - by apply RepeatMatcher_local.
  - apply IH1. intros s' caps' Hl. by apply Hk.
  - by apply IH1.
  - destruct (Nat.eqb _ _); [|done]. by apply Hk.
  - destruct s; [|done]. by apply Hk.
Qed.

(** The fuel [rmatch] gives a repetition is enough. *)
Lemma rmatch_repeat_fuel ic n0 r idx min max s caps k fuel :
  min + String.length s < fuel →
  rmatch ic n0 (Repeat min max r) idx s caps k
  = RepeatMatcher (rmatch ic n0 r idx) idx (ngroups r) fuel min max s caps k.
Proof.
  intros Hfuel. cbn [rmatch]. apply RepeatMatcher_fuel; [apply rmatch_local|lia|done].
Qed.

(** So is the fuel of the scan of [replace]. *)
Lemma scan_from_fuel re n0 fuel1 : ∀ fuel2 s,
  String.length s < fuel1 → String.length s < fuel2 →
  scan_from re n0 fuel1 s = scan_from re n0 fuel2 s.
Proof.
  induction fuel1 as [|fuel1 IH]; intros fuel2 s H1 H2; [lia|].
  destruct fuel2 as [|fuel2]; [lia|]. simpl.
  destruct s as [|c s]; [done|]. simpl in H1, H2.
  destruct (match_at re n0 (String c s)) as [z|] eqn:Hz.
  - apply rmatch_sound in Hz as (s' & caps' & [= <-] & _ & Hl). simpl in *.
    destruct (Nat.eqb (String.length s') (S (String.length s))) eqn:Hlen.
    + do 2 f_equal. apply IH; lia.
    + apply Nat.eqb_neq in Hlen. f_equal. apply IH; lia.
  - f_equal. apply IH; lia.
Qed.

(** ** The tokens of [expression] *)

Lemma expression_slash n0 s z :
  match_at expression n0 s = Some z →
  z.2 !! 0 = Some (Some EmptyString) ∨ z.2 !! 0 = Some (Some "/").
Proof.
  unfold match_at, expression. cbn [source ignoreCase].
  match goal with |- context [Seq _ (NoCap ?b)] => set (alternatives := NoCap b) end.
  cbn [rmatch ngroups Nat.add].
  set (caps0 := replicate _ None).
  assert (Hafter : ∀ text rest,
    rmatch false n0 alternatives 1 rest (<[0 := Some text]> caps0)
      (λ s' caps, Some (s', caps)) = Some z →
    z.2 !! 0 = Some (Some text)).
  { intros text rest Hz.
    apply rmatch_sound in Hz as (s' & caps' & [= <-] & Hf & _). simpl.
    by rewrite Hf by lia. }
  destruct s as [|c s].
  - simpl RepeatMatcher. intros Hz. discriminate.
  - cbn [String.length]. rewrite opt_unfold. cbn [rmatch clear_caps].
    destruct (char_eq false "/" c) eqn:Hc.
    + cbn [String.length]. rewrite (proj2 (Nat.eqb_neq _ _)) by lia.
      replace (S (String.length s) - String.length s) with 1 by lia.
      apply Ascii.eqb_eq in Hc as <-. cbn [str_take].
      destruct (rmatch false n0 alternatives 1 s _ _) as [z'|] eqn:Hz.
      * intros [= <-]. right. by apply (Hafter _ _ Hz).
      * rewrite Nat.sub_diag. intros Hz'. left. by apply (Hafter _ _ Hz').
    + rewrite Nat.sub_diag. intros Hz. left. by apply (Hafter _ _ Hz).
Qed.

Lemma arg_match_array s z i : arg (match_array s z) (S i) = mjoin (snd z !! i).
Proof. reflexivity. Qed.

Lemma matched_slash n0 s z :
  match_at expression n0 s = Some z → slash_ok (Matched (match_array s z)).
Proof.
  intros Hz. apply expression_slash in Hz. simpl. rewrite arg_match_array.
  destruct Hz as [-> | ->]; [by left|by right].
Qed.

Lemma scan_from_slash n0 fuel : ∀ s, Forall slash_ok (scan_from expression n0 fuel s).
Proof.
  induction fuel as [|fuel IH]; intros s; simpl; [done|].
  destruct s as [|c s].
  - destruct (match_at expression n0 EmptyString) as [z|] eqn:Hz; [|done].
    constructor; [|done]. by apply matched_slash in Hz.
  - destruct (match_at expression n0 (String c s)) as [z|] eqn:Hz.
    + apply matched_slash in Hz.
      destruct (Nat.eqb _ _).
      * apply Forall_cons. split; [done|]. apply Forall_cons. split; [done|apply IH].
      * apply Forall_cons. split; [done|apply IH].
    + by constructor.
Qed.

Lemma scan_slash pattern : Forall slash_ok (scan expression pattern).
Proof. apply scan_from_slash. Qed.

(** ** Routes of literals and variables *)





(** ** Decimal numbers *)

Lemma digit_char_spec d :
  (d < 10)%N → is_digit (digit_char d) = true ∧ digit_val (digit_char d) = d.
Proof.
  intros Hd.
  assert (d = 0 ∨ d = 1 ∨ d = 2 ∨ d = 3 ∨ d = 4 ∨ d = 5 ∨ d = 6 ∨ d = 7
          ∨ d = 8 ∨ d = 9)%N as Hcases by lia.
  repeat destruct Hcases as [-> | Hcases]; try subst d; by vm_compute.
Qed.

Lemma mod10_lt n : (n mod 10 < 10)%N.
Proof. apply N.mod_lt. lia. Qed.

Lemma digits_go_digits fuel : ∀ n acc,
  str_forallb is_digit acc = true →
  str_forallb is_digit (digits_go fuel n acc) = true.
Proof.
  induction fuel as [|fuel IH]; intros n acc Hacc; simpl; [done|].
  assert (Hacc' : str_forallb is_digit (String (digit_char (n mod 10)) acc) = true).
  { simpl. rewrite Hacc.
    by rewrite (proj1 (digit_char_spec (n mod 10) (mod10_lt n))). }
  destruct (n / 10 =? 0)%N; [done|]. by apply IH.
Qed.

Lemma digits_go_app fuel : ∀ n acc,
  digits_go fuel n acc = digits_go fuel n EmptyString +:+ acc.
Proof.
  induction fuel as [|fuel IH]; intros n acc; simpl; [done|].
  destruct (n / 10 =? 0)%N; [done|].
  rewrite (IH _ (String _ acc)), (IH _ (String _ EmptyString)).
  by rewrite app_assoc_str.
Qed.



Lemma digits_digits n : str_forallb is_digit (digits n) = true.
Proof. by apply digits_go_digits. Qed.

Lemma digits_head n : ∃ c s, digits n = String c s ∧ is_digit c = true.
Proof.
  pose proof (digits_digits n) as Hd. unfold digits in *. simpl in *.
  destruct (n / 10 =? 0)%N.
  - eexists _, _. split; [done|]. simpl in Hd. by apply andb_true_iff in Hd as [? _].
  - rewrite digits_go_app in *.
    destruct (digits_go _ _ EmptyString) as [|c s].
    + eexists _, _. split; [done|]. simpl in Hd.
      by apply andb_true_iff in Hd as [? _].
    + eexists _, _. split; [done|]. simpl in Hd.
      by apply andb_true_iff in Hd as [? _].
Qed.




(** ** Splitting and percent encoding *)

Lemma str_forallb_app (p : ascii → bool) (s t : string) :
  str_forallb p (s +:+ t) = str_forallb p s && str_forallb p t.
Proof.
  induction s as [|c s IH]; [done|]. rewrite app_cons. simpl.
  by rewrite IH, andb_assoc.
Qed.















Lemma escape_byte_length s b s' :
  escape_byte s = Some (b, s') → String.length s' < String.length s.
Proof.
  unfold escape_byte.
  destruct s as [|c [|h [|l s0]]]; [done|..];
    destruct c as [[] [] [] [] [] [] [] []]; try done.
  destruct (hex_val h), (hex_val l); try done.
  intros [= _ <-]. simpl. lia.
Qed.

Lemma continuation_length n : ∀ lo hi s bs s',
  continuation n lo hi s = Some (bs, s') → String.length s' ≤ String.length s.
Proof.
  induction n as [|n IH]; intros lo hi s bs s'; simpl.
  - by intros [= _ <-].
  - destruct (escape_byte s) as [[b s1]|] eqn:Hb; [|done].
    destruct (_ && _); [|done].
    destruct (continuation n 128 191 s1) as [[bs1 s2]|] eqn:Hc; [|done].
    intros [= _ <-]. apply escape_byte_length in Hb. apply IH in Hc. lia.
Qed.

(** The fuel of [decodeURIComponent] is enough: more changes nothing. *)
Lemma decode_go_fuel fuel1 : ∀ fuel2 s,
  String.length s ≤ fuel1 → String.length s ≤ fuel2 →
  decode_go fuel1 s = decode_go fuel2 s.
Proof.
  induction fuel1 as [|fuel1 IH]; intros fuel2 s H1 H2.
  - destruct s; [|simpl in H1; lia]. by destruct fuel2.
  - destruct fuel2 as [|fuel2]; [destruct s; [done|simpl in H2; lia]|].
    destruct s as [|c s]; [done|]. simpl in H1, H2.
    assert (Hplain : bind (decode_go fuel1 s) (λ r, Ok (String c r))
                     = bind (decode_go fuel2 s) (λ r, Ok (String c r))).
    { rewrite (IH fuel2 s) by lia. done. }
    destruct c as [[] [] [] [] [] [] [] []]; try exact Hplain.
    cbn [decode_go].
    destruct (escape_byte _) as [[b s1]|] eqn:Hb; [|done].
    apply escape_byte_length in Hb. simpl in Hb.
    assert (Hseq : ∀ n lo hi,
      match continuation n lo hi s1 with
      | Some (bs, s'') =>
          bind (decode_go fuel1 s'') (λ r, Ok (String (ascii_of_N b) (bs +:+ r)))
      | None => Throw URIError
      end
      = match continuation n lo hi s1 with
        | Some (bs, s'') =>
            bind (decode_go fuel2 s'') (λ r, Ok (String (ascii_of_N b) (bs +:+ r)))
        | None => Throw URIError
        end).
    { intros n lo hi. destruct (continuation n lo hi s1) as [[bs s2]|] eqn:Hc; [|done].
      apply continuation_length in Hc. rewrite (IH fuel2 s2) by lia. done. }
    repeat (destruct (_ <? _)%N || destruct (_ =? _)%N);
      first [done | apply Hseq | rewrite (IH fuel2 s1) by lia; done].
Qed.








(** ** The round trip of one route *)














(** *** Reading the captures back *)










(** ** The tokens of a pattern *)

Lemma expression_alternatives :
  source expression
  = Seq (Group (Opt (Chr "/")))
        (NoCap (Alt escape_alt (Alt variable_alt (Alt special_alt literal_alt)))).
Proof. reflexivity. Qed.

Lemma rmatch_consumes ic n0 r :
  nullable r = false → ∀ idx, consumes (rmatch ic n0 r idx).
Proof.
  induction r as [|a| |neg items|r1 IH1 r2 IH2|r1 IH1 r2 IH2|min max r1 IH1
                  |r1 IH1|r1 IH1| |];
    intros Hn idx s caps k res; cbn [rmatch]; simpl in Hn; try discriminate Hn.
  - destruct s as [|c s]; [done|]. destruct (char_eq ic a c); [|done].
    intros Hk. exists s, caps. split; [done|simpl; lia].
  - destruct s as [|c s]; [done|]. destruct (is_line_terminator c); [done|].
    intros Hk. exists s, caps. split; [done|simpl; lia].
  - destruct s as [|c s]; [done|]. destruct (xorb neg _); [|done].
    intros Hk. exists s, caps. split; [done|simpl; lia].
  - intros H1. apply andb_false_iff in Hn as [Hn|Hn].
    + apply (IH1 Hn) in H1 as (s1 & caps1 & H2 & Hl1).
      apply rmatch_sound in H2 as (s2 & caps2 & Hk & _ & Hl2).
      exists s2, caps2. split; [done|lia].
    + apply rmatch_sound in H1 as (s1 & caps1 & H2 & _ & Hl1).
      apply (IH2 Hn) in H2 as (s2 & caps2 & Hk & Hl2).
      exists s2, caps2. split; [done|lia].
  - apply orb_false_iff in Hn as [Hn1 Hn2].
    destruct (rmatch ic n0 r1 idx s caps k) as [z|] eqn:Hz.
    + intros [= <-]. by apply (IH1 Hn1) in Hz.
    + intros H2. by apply (IH2 Hn2) in H2.
  - apply orb_false_iff in Hn as [Hn Hmax]. apply orb_false_iff in Hn as [Hmin Hn].
    cbn [RepeatMatcher]. rewrite Hmin. cbn [andb].
    assert (Hstep :
      rmatch ic n0 r1 idx s (clear_caps idx (ngroups r1) caps)
        (λ s' caps',
           RepeatMatcher (rmatch ic n0 r1 idx) idx (ngroups r1)
             (min + String.length s) (pred min) (pred <$> max) s' caps' k)
      = Some res →
      ∃ s' caps', k s' caps' = Some res ∧ String.length s' < String.length s).
    { intros H1. apply (IH1 Hn) in H1 as (s1 & caps1 & H2 & Hl1).
      apply RepeatMatcher_sound in H2 as (s2 & caps2 & Hk & _ & Hl2);
        [|apply rmatch_sound].
      exists s2, caps2. split; [done|lia]. }
    destruct max as [[|n]|]; [done|exact Hstep|exact Hstep].
  - intros H1. apply (IH1 Hn) in H1 as (s1 & caps1 & Hk & Hl1). by eexists _, _.
  - by apply IH1.
Qed.

Lemma alt_some ic n0 r1 r2 idx s caps k :
  is_Some (rmatch ic n0 r1 idx s caps k)
  ∨ is_Some (rmatch ic n0 r2 (idx + ngroups r1) s caps k) →
  is_Some (rmatch ic n0 (Alt r1 r2) idx s caps k).
Proof.
  cbn [rmatch]. destruct (rmatch ic n0 r1 idx s caps k) as [z|]; [by eexists|].
  by intros [[? ?]|?].
Qed.

Lemma star_some ic n0 r idx s caps k :
  is_Some (k s caps) → is_Some (rmatch ic n0 (Star r) idx s caps k).
Proof.
  intros Hk. cbn [rmatch Nat.add RepeatMatcher Nat.eqb andb].
  by destruct (rmatch ic n0 r idx s _ _).
Qed.

Lemma literal_alt_some n0 idx c s caps k :
  class_mem [CChar "/"; CChar ":"; CChar "*"; CChar "+"; CChar "."; CChar "&"] c = false →
  total k → is_Some (rmatch false n0 literal_alt idx (String c s) caps k).
Proof.
  intros Hc Hk. unfold literal_alt.
  remember (Class true [CChar "/"; CChar ":"; CChar "*"; CChar "+"; CChar "."; CChar "&"])
    as cls eqn:Hcls.
  assert (Hm : ∀ i s' caps' k', rmatch false n0 cls i (String c s') caps' k' = k' s' caps').
  { intros. subst cls. cbn [rmatch set_mem]. by rewrite Hc. }
  assert (Hg : ngroups cls = 0) by (by subst cls).
  clear Hcls. cbn [rmatch RepeatMatcher Nat.eqb andb Nat.add pred]. rewrite Hg.
  cbn [clear_caps]. rewrite Hm. cbn [fmap option_fmap option_map].
  match goal with
  | |- is_Some (match ?x with Some z => Some z | None => _ end) =>
      destruct x; [by eexists|apply Hk]
  end.
Qed.

Lemma special_alt_some n0 idx s caps k :
  total k → is_Some (rmatch false n0 special_alt idx (String "." s) caps k).
Proof. intros Hk. unfold special_alt. cbn. apply Hk. Qed.

Lemma variable_alt_some n0 idx (c : ascii) s caps k :
  c = ":"%char ∨ c = "*"%char ∨ c = "+"%char →
  total k → is_Some (rmatch false n0 variable_alt idx (String c s) caps k).
Proof.
  intros Hc Hk. unfold variable_alt.
  remember (Group (Star Word)) as nm eqn:Hnm.
  remember (Group (Alt (Class false [CChar "?"; CChar "&"]) Empty)) as suffix eqn:Hsuf.
  assert (Hrest : ∀ i j s' caps',
    rmatch false n0 nm i s' caps'
      (λ s'' caps'', rmatch false n0 suffix j s'' caps'' k) ≠ None).
  { intros i j s' caps'. subst nm suffix.
    assert (Hsome : is_Some (rmatch false n0 (Group (Star Word)) i s' caps'
      (λ s'' caps'',
         rmatch false n0 (Group (Alt (Class false [CChar "?"; CChar "&"]) Empty))
           j s'' caps'' k))); [|by destruct Hsome as [z ->]].
    cbn [rmatch]. apply (star_some false n0 Word (S i) s' caps').
    match goal with
    | |- is_Some (match ?x with Some z => Some z | None => _ end) =>
        destruct x; [by eexists|apply Hk]
    end. }
  clear Hnm Hsuf.
  destruct Hc as [-> | [-> | ->]]; cbn [rmatch]; unfold char_eq, canon;
    cbn [Ascii.eqb Bool.eqb andb ngroups Nat.add];
    repeat match goal with
    | |- is_Some (match ?x with Some z => Some z | None => _ end) =>
        destruct x eqn:?; [by eexists|]
    end;
    exfalso; eapply Hrest; eassumption.
Qed.

(** Behind a character other than a slash and an ampersand a token
    starts. *)
Lemma expression_some n0 (c : ascii) s :
  c ≠ "/"%char → c ≠ "&"%char → is_Some (match_at expression n0 (String c s)).
Proof.
  intros Hslash Hamp. unfold match_at. rewrite expression_alternatives.
  change (ignoreCase expression) with false. set (caps0 := replicate _ None).
  set (alts := Alt escape_alt (Alt variable_alt (Alt special_alt literal_alt))).
  assert (Halts : ∀ caps, is_Some (rmatch false n0 alts 1 (String c s) caps
                                     (λ s' caps', Some (s', caps')))).
  { intros caps. unfold alts.
    assert (Hk : total (λ s' caps', Some (s', caps'))) by (intros ? ?; by eexists).
    apply alt_some. right. apply alt_some.
    destruct (decide (c = ":"%char ∨ c = "*"%char ∨ c = "+"%char)) as [Hv|Hv].
    { left. by apply variable_alt_some. }
    right. apply alt_some.
    destruct (decide (c = "."%char)) as [->|Hdot].
    { left. by apply special_alt_some. }
    right. apply literal_alt_some; [|done].
    cbn [class_mem existsb citem_mem orb].
    repeat match goal with
    | |- context [Ascii.eqb ?a c] =>
        rewrite (proj2 (Ascii.eqb_neq a c)) by (intros Heq; subst; tauto)
    end. done. }
  cbn [rmatch ngroups Nat.add]. cbn [String.length]. rewrite opt_unfold.
  cbn [clear_caps rmatch]. unfold char_eq, canon.
  rewrite (proj2 (Ascii.eqb_neq "/" c)) by done.
  rewrite Nat.sub_diag. apply Halts.
Qed.

Lemma expression_consumes n0 s z :
  match_at expression n0 s = Some z → String.length z.1 < String.length s.
Proof.
  unfold match_at. intros Hz.
  apply rmatch_consumes in Hz as (s' & caps' & [= <-] & Hl); [done|reflexivity].
Qed.

Lemma matched_ok n0 s z :
  match_at expression n0 s = Some z → piece_ok (Matched (match_array s z)).
Proof.
  intros Hz. apply expression_consumes in Hz. unfold match_array. simpl.
  destruct s as [|a s]; [simpl in Hz; lia|].
  destruct (String.length (String a s) - String.length z.1) as [|n] eqn:Hn;
    [simpl in *; lia|].
  by eexists _, _.
Qed.

Lemma scan_from_ok n0 fuel : ∀ s, Forall piece_ok (scan_from expression n0 fuel s).
Proof.
  induction fuel as [|fuel IH]; intros s; simpl; [done|].
  destruct s as [|c s].
  - destruct (match_at expression n0 EmptyString) as [z|] eqn:Hz; [|done].
    constructor; [|done]. by apply matched_ok in Hz.
  - destruct (match_at expression n0 (String c s)) as [z|] eqn:Hz.
    + pose proof (expression_consumes _ _ _ Hz) as Hl.
      rewrite (proj2 (Nat.eqb_neq _ _)) by lia.
      apply Forall_cons. split; [by apply matched_ok in Hz|apply IH].
    + apply Forall_cons. split; [|apply IH]. simpl.
      destruct (decide (c = "/"%char)) as [->|Hslash]; [by left|].
      destruct (decide (c = "&"%char)) as [->|Hamp]; [by right|].
      destruct (expression_some n0 c s Hslash Hamp) as [z Hz']. congruence.
Qed.

(** X15. The tokens of a pattern.  In [pattern.replace(expression, ...)]
    no token is empty, and a character of the pattern that belongs to no
    token, and so comes to the expression of the route but to none of
    its terms, is a slash or an ampersand. *)
Theorem pattern_pieces pattern : Forall piece_ok (scan expression pattern).
Proof. apply scan_from_ok. Qed.

(** ** Patterns without syntax characters in their literal runs *)

Lemma clear_caps_above cnt : ∀ idx caps i,
  idx + cnt ≤ i → clear_caps idx cnt caps !! i = caps !! i.
Proof.
  induction cnt as [|cnt IH]; intros idx caps i Hi; simpl; [done|].
  rewrite list_lookup_insert_ne by lia. apply IH. lia.
Qed.

Lemma RepeatMatcher_above m idx cnt top :
  idx + cnt ≤ top → above top m →
  ∀ fuel min max, above top (RepeatMatcher m idx cnt fuel min max).
Proof.
  intros Htop Hm. induction fuel as [|fuel IH]; intros min max s caps k res; simpl; [done|].
  assert (Hstep : ∀ res',
    m s (clear_caps idx cnt caps)
      (λ s' caps',
         if Nat.eqb min 0 && Nat.eqb (String.length s') (String.length s) then None
         else RepeatMatcher m idx cnt fuel (pred min) (pred <$> max) s' caps' k)
    = Some res' →
    ∃ s' caps', k s' caps' = Some res' ∧ ∀ i, top ≤ i → caps' !! i = caps !! i).
  { intros res' Hres. apply Hm in Hres as (s1 & caps1 & Hd & Hf1).
    destruct (Nat.eqb min 0 && _); [done|].
    apply IH in Hd as (s2 & caps2 & Hk & Hf2).
    exists s2, caps2. split; [done|]. intros i Hi.
    rewrite Hf2, Hf1 by done. apply clear_caps_above. lia. }
  assert (Hdirect : k s caps = Some res →
    ∃ s' caps', k s' caps' = Some res ∧ ∀ i, top ≤ i → caps' !! i = caps !! i).
  { intros Hk. by exists s, caps. }
  destruct max as [[|n]|]; [done| |].
  - destruct (Nat.eqb min 0); [|by apply Hstep].
    destruct (m s _ _) as [z|] eqn:Hz; [|done].
    intros [= <-]. by apply Hstep.
  - destruct (Nat.eqb min 0); [|by apply Hstep].
    destruct (m s _ _) as [z|] eqn:Hz; [|done].
    intros [= <-]. by apply Hstep.
Qed.

Lemma rmatch_above ic n0 r : ∀ idx top,
  idx + ngroups r ≤ top → above top (rmatch ic n0 r idx).
Proof.
  induction r as [|a| |neg items|r1 IH1 r2 IH2|r1 IH1 r2 IH2|min max r1 IH1
                  |r1 IH1|r1 IH1| |];
    intros idx top Htop s caps k res; cbn [rmatch]; cbn [ngroups] in Htop.
  - intros Hk. by exists s, caps.
  - destruct s as [|c s]; [done|]. destruct (char_eq ic a c); [|done].
    intros Hk. by exists s, caps.
  - destruct s as [|c s]; [done|]. destruct (is_line_terminator c); [done|].
    intros Hk. by exists s, caps.
  - destruct s as [|c s]; [done|]. destruct (xorb neg _); [|done].
    intros Hk. by exists s, caps.
  - intros H1. apply (IH1 idx top) in H1 as (s1 & caps1 & H2 & Hf1); [|lia].
    apply (IH2 _ top) in H2 as (s2 & caps2 & Hk & Hf2); [|lia].
    exists s2, caps2. split; [done|]. intros i Hi. by rewrite Hf2, Hf1.
  - destruct (rmatch ic n0 r1 idx s caps k) as [z|] eqn:Hz.
    + intros [= <-]. apply (IH1 idx top) in Hz; [done|lia].
    + intros H2. apply (IH2 _ top) in H2; [done|lia].
  - apply RepeatMatcher_above; [done|]. by apply IH1.
  - intros H1. apply (IH1 (S idx) top) in H1 as (s1 & caps1 & Hk & Hf1); [|lia].
    eexists _, _. split; [exact Hk|].
    intros i Hi. rewrite list_lookup_insert_ne by lia. by apply Hf1.
  - by apply IH1.
  - destruct (Nat.eqb _ _); [|done]. intros Hk. by exists s, caps.
  - destruct s; [|done]. intros Hk. by exists EmptyString, caps.
Qed.

Lemma mark_absent : mark None.
Proof. by intros ?. Qed.

Lemma escape_is_mark c :
  class_mem [CChar ":"; CChar "*"; CChar "+"; CChar "&"] c = true → is_word c = false.
Proof. destruct c as [[] [] [] [] [] [] [] []]; intros Hc; try discriminate Hc; reflexivity. Qed.

Lemma special_is_mark c :
  class_mem [CChar "-"; CChar "["; CChar "]"; CChar "{"; CChar "}";
             CChar "("; CChar ")"; CChar "*"; CChar "+"; CChar ".";
             CChar "^"; CChar "$"; CChar "|"; CChar ","; CChar "#"; CSpace] c = true →
  is_word c = false.
Proof. destruct c as [[] [] [] [] [] [] [] []]; intros Hc; try discriminate Hc; reflexivity. Qed.

Lemma str_take_one c s :
  str_take (S (String.length s) - String.length s) (String c s) = String c EmptyString.
Proof. by replace (S (String.length s) - String.length s) with 1 by lia. Qed.

(** Of the four alternatives only the first sets the escape and only
    the third the special, each to one character of its class. *)
Lemma alternatives_marks n0 s caps z :
  caps !! 1 = Some None → caps !! 5 = Some None →
  rmatch false n0 (NoCap (Alt escape_alt (Alt variable_alt (Alt special_alt literal_alt))))
    1 s caps (λ s' caps', Some (s', caps')) = Some z →
  mark (mjoin (z.2 !! 1)) ∧ mark (mjoin (z.2 !! 5)).
Proof.
  intros H1 H5. cbn [rmatch].
  assert (Hl1 : 1 < length caps) by (by eapply lookup_lt_Some).
  assert (Hl5 : 5 < length caps) by (by eapply lookup_lt_Some).
  destruct (rmatch false n0 escape_alt 1 s caps _) as [z1|] eqn:Hz1.
  { intros [= <-]. unfold escape_alt in Hz1. cbn [rmatch ngroups Nat.add] in Hz1.
    destruct s as [|c1 s1]; [done|]. destruct (char_eq false ":" c1); [|done].
    destruct s1 as [|c2 s2]; [done|].
    destruct (xorb false _) eqn:Hc; [|done]. injection Hz1 as <-. cbn [snd].
    rewrite list_lookup_insert_eq by done.
    rewrite list_lookup_insert_ne, H5 by done. split; [|apply mark_absent].
    cbn [mjoin option_join]. rewrite str_take_one. intros _. exists c2. split; [done|].
    by apply escape_is_mark. }
  change (1 + ngroups escape_alt) with 2.
  destruct (rmatch false n0 variable_alt 2 s caps _) as [z2|] eqn:Hz2.
  { intros [= <-].
    pose proof Hz2 as Hz2'.
    apply rmatch_sound in Hz2 as (s' & caps' & [= <-] & Hf & _).
    apply (rmatch_above false n0 variable_alt 2 5) in Hz2' as (s'' & caps'' & [= Hs Hcaps] & Ha);
      [|reflexivity].
    cbn [snd]. rewrite Hf by lia. rewrite H1.
    rewrite <- Hcaps, Ha, H5 by lia. split; apply mark_absent. }
  change (2 + ngroups variable_alt) with 5.
  destruct (rmatch false n0 special_alt 5 s caps _) as [z3|] eqn:Hz3.
  { intros [= <-]. unfold special_alt in Hz3. cbn [rmatch] in Hz3.
    destruct s as [|c s1]; [done|].
    destruct (xorb false _) eqn:Hc; [|done]. injection Hz3 as <-. cbn [snd].
    rewrite list_lookup_insert_eq by done.
    rewrite list_lookup_insert_ne, H1 by done. split; [apply mark_absent|].
    cbn [mjoin option_join]. rewrite str_take_one. intros _. exists c. split; [done|].
    by apply special_is_mark. }
  change (5 + ngroups special_alt) with 6.
  intros Hz4. apply rmatch_sound in Hz4 as (s' & caps' & [= <-] & Hf & _).
  cbn [snd]. rewrite !Hf by lia. rewrite H1, H5. split; apply mark_absent.
Qed.

Lemma expression_marks n0 s z :
  match_at expression n0 s = Some z →
  mark (mjoin (z.2 !! 1)) ∧ mark (mjoin (z.2 !! 5)).
Proof.
  unfold match_at. rewrite expression_alternatives.
  change (ignoreCase expression) with false.
  set (alts := NoCap (Alt escape_alt (Alt variable_alt (Alt special_alt literal_alt)))).
  cbn [rmatch ngroups Nat.add].
  change (replicate _ None) with (replicate 7 (@None string)).
  assert (Hafter : ∀ text rest,
    rmatch false n0 alts 1 rest (<[0 := Some text]> (replicate 7 None))
      (λ s' caps, Some (s', caps)) = Some z →
    mark (mjoin (z.2 !! 1)) ∧ mark (mjoin (z.2 !! 5))).
  { intros text rest Hz. by apply alternatives_marks in Hz. }
  destruct s as [|c s].
  - simpl RepeatMatcher. intros Hz. discriminate.
  - cbn [String.length]. rewrite opt_unfold. cbn [rmatch clear_caps].
    destruct (char_eq false "/" c) eqn:Hc.
    + cbn [String.length]. rewrite (proj2 (Nat.eqb_neq _ _)) by lia.
      destruct (rmatch false n0 alts 1 s _ _) as [z'|] eqn:Hz.
      * intros [= <-]. by apply (Hafter _ _ Hz).
      * intros Hz'. by apply (Hafter _ _ Hz').
    + intros Hz. by apply (Hafter _ _ Hz).
Qed.

Lemma matched_marked n0 s z :
  match_at expression n0 s = Some z → marked (Matched (match_array s z)).
Proof.
  intros Hz. apply expression_marks in Hz. simpl. by rewrite !arg_match_array.
Qed.

Lemma scan_from_marked n0 fuel : ∀ s, Forall marked (scan_from expression n0 fuel s).
Proof.
  induction fuel as [|fuel IH]; intros s; simpl; [done|].
  destruct s as [|c s].
  - destruct (match_at expression n0 EmptyString) as [z|] eqn:Hz; [|done].
    constructor; [|done]. by apply matched_marked in Hz.
  - destruct (match_at expression n0 (String c s)) as [z|] eqn:Hz.
    + apply matched_marked in Hz.
      destruct (Nat.eqb _ _).
      * apply Forall_cons. split; [done|]. apply Forall_cons. split; [done|apply IH].
      * apply Forall_cons. split; [done|apply IH].
    + by constructor.
Qed.

Lemma lit_syntax_free s : syntax_free s = true → is_Some (lit s).
Proof.
  unfold syntax_free. induction s as [|c s IH]; simpl; [by eexists|].
  intros [Hc Hs]%negb_true_iff%orb_false_iff. rewrite Hc.
  destruct IH as [r ->]; [by rewrite Hs|]. by eexists.
Qed.

Lemma syntax_free_app s t :
  syntax_free s = true → syntax_free t = true → syntax_free (s +:+ t) = true.
Proof.
  unfold syntax_free. induction s as [|c s IH]; simpl; [done|].
  intros [Hc Hs]%negb_true_iff%orb_false_iff Ht. rewrite Hc. simpl.
  apply IH; [by rewrite Hs|done].
Qed.

Lemma mark_escaped c : mark c → is_truthy c = true → is_Some (escaped (text c)).
Proof. intros Hc Ht. destruct (Hc Ht) as (a & -> & Ha). simpl. rewrite Ha. by eexists. Qed.

(** The callback returns an expression for every token of a plain
    pattern. *)
Lemma callback_defined m st :
  slash_ok (Matched m) → marked (Matched m) → plain_piece (Matched m) = true →
  is_Some (callback m st).2.
Proof.
  intros Hsl [Hesc Hspec] Hplain. simpl in Hsl, Hplain. unfold callback.
  assert (Hslash : syntax_free (text (arg m 1)) = true).
  { by destruct Hsl as [-> | ->]. }
  assert (Hafter : ∀ r, is_Some r → is_Some (after_slash (text (arg m 1)) r)).
  { intros r [r' ->]. by eexists. }
  destruct (is_truthy (arg m 3)).
  - destruct (String.eqb (text (arg m 3)) "..."); [by eexists|].
    destruct (String.eqb (text (arg m 5)) "&"); by eexists.
  - destruct (is_truthy (arg m 2)) eqn:H2; [by apply Hafter, mark_escaped|].
    destruct (is_truthy (arg m 7)) eqn:H7.
    + cbn [snd]. apply lit_syntax_free, syntax_free_app; [done|].
      unfold or_empty in Hplain. by rewrite H7 in Hplain.
    + destruct (is_truthy (arg m 6)) eqn:H6; [by apply Hafter, mark_escaped|].
      cbn [snd]. apply lit_syntax_free, syntax_free_app; [done|].
      destruct (arg m 7) as [[|? ?]|]; done.
Qed.

Lemma replace_defined ps : ∀ st,
  Forall slash_ok ps → Forall marked ps → Forall piece_ok ps →
  forallb plain_piece ps = true →
  is_Some (replace ps st).2.
Proof.
  induction ps as [|p ps IH]; intros st Hsl Hmk Hok Hplain; simpl; [by eexists|].
  apply Forall_cons in Hsl as [Hsl Hsls]. apply Forall_cons in Hmk as [Hmk Hmks].
  apply Forall_cons in Hok as [Hok Hoks].
  simpl in Hplain. apply andb_true_iff in Hplain as [Hplain Hplains].
  destruct p as [c|m].
  - destruct (IH st Hsls Hmks Hoks Hplains) as [r2 Hr2].
    destruct (replace ps st) as [st2 r2']. simpl in Hr2. subst r2'.
    simpl in Hok. destruct Hok as [-> | ->]; by eexists.
  - destruct (callback_defined m st Hsl Hmk Hplain) as [r1 Hr1].
    destruct (callback m st) as [st1 r1']. simpl in Hr1. subst r1'.
    destruct (IH st1 Hsls Hmks Hoks Hplains) as [r2 Hr2].
    destruct (replace ps st1) as [st2 r2']. simpl in Hr2. subst r2'.
    by eexists.
Qed.

(** The model compiles every plain pattern. *)
Lemma compile_defined pattern d insensitive :
  plain pattern = true → is_Some (compile pattern d insensitive).
Proof.
  intros Hplain. unfold compile, compileRegExp.
  destruct (replace_defined (scan expression pattern)
              {| counter := 0; variables := []; terms := [] |}) as [r Hr].
  - apply scan_slash.
  - apply scan_from_marked.
  - apply scan_from_ok.
  - exact Hplain.
  - destruct (replace _ _) as [st re]. simpl in Hr. subst re. by eexists.
Qed.



(** ** Percent encoding: plural against singular *)







(** ** The round trip through a table *)






(** * More of the router *)

(** ** The tables by destination *)

Lemma routes_for_snoc d tbl ρ :
  routes_for d (tbl ++ [ρ])
  = routes_for d tbl ++ (if decide (destination ρ = d) then [ρ] else []).
Proof.
  unfold routes_for. rewrite filter_app. by f_equal.
Qed.

Lemma terms_for_snoc ρs ρ :
  terms_for (ρs ++ [ρ])
  = foldl (λ ts v, <[name v := v]> ts) (terms_for ρs) (route_variables ρ).
Proof.
  unfold terms_for. rewrite bind_app, foldl_app. simpl. by rewrite app_nil_r.
Qed.

Lemma add_route_agree pre insensitive acc entry acc' :
  add_route pre insensitive acc entry = Some acc' →
  tables_agree acc → tables_agree acc'.
Proof.
  destruct entry as [p d']. unfold add_route.
  destruct (compile (pre +:+ p) d' insensitive) as [ρ|] eqn:Hc; [|done].
  apply compile_destination in Hc.
  intros [= <-] Hacc d. destruct (Hacc d) as [Hb Ht]. simpl.
  rewrite routes_for_snoc, Hc.
  destruct (decide (d' = d)) as [->|Hne].
  - rewrite !lookup_insert_eq, Hb, Ht.
    destruct (routes_for d (table acc)) as [|ρ0 ρs] eqn:Hρs; simpl.
    + split; [done|]. f_equal. unfold terms_for. simpl. by rewrite app_nil_r.
    + split; [done|]. f_equal.
      change (ρ0 :: ρs ++ [ρ]) with ((ρ0 :: ρs) ++ [ρ]). by rewrite terms_for_snoc.
  - rewrite !lookup_insert_ne by done. by rewrite app_nil_r.
Qed.

Lemma add_routes_agree pre insensitive routes : ∀ acc r,
  add_routes pre insensitive acc routes = Some r →
  tables_agree acc → tables_agree r.
Proof.
  induction routes as [|e routes IH]; intros acc r Hr Hacc; simpl in Hr.
  - by injection Hr as <-.
  - destruct (add_route pre insensitive acc e) as [acc'|] eqn:He; [|done].
    eapply IH; [exact Hr|]. by eapply add_route_agree.
Qed.

Lemma Router_agree pre routes insensitive r :
  Router pre routes insensitive = Some r → tables_agree r.
Proof.
  intros Hr. eapply add_routes_agree; [exact Hr|]. intros d. by split.
Qed.

(** The last variable of a name is what [terms] holds under it. *)
Lemma terms_fold_lookup (vs : list variable) : ∀ (ts : gmap string variable) k,
  foldl (λ ts v, <[name v := v]> ts) ts vs !! k
  = match last (filter (λ v, name v = k) vs) with
    | Some v => Some v
    | None => ts !! k
    end.
Proof.
  induction vs as [|v vs IH]; intros ts k; simpl; [done|].
  rewrite IH, filter_cons. case_decide as Hk.
  - destruct (filter _ vs) as [|v' vs'] eqn:Hf; simpl.
    + by rewrite <- Hk, lookup_insert_eq.
    + destruct (last (v' :: vs')) eqn:Hl; [done|]. by apply last_None in Hl.
  - destruct (last _); [done|]. by rewrite lookup_insert_ne.
Qed.

(** X1. For a table the constructor built, [backTable] holds under a
    destination exactly the routes of [table] with that destination, in
    table order, and holds no empty list. *)
Theorem backTable_routes pre routes insensitive r d ρs :
  Router pre routes insensitive = Some r →
  backTable r !! d = Some ρs ↔ ρs = routes_for d (table r) ∧ ρs ≠ [].
Proof.
  intros Hr. destruct (Router_agree _ _ _ _ Hr d) as [-> _].
  destruct (routes_for d (table r)) as [|ρ0 l]; split.
  - done.
  - by intros [-> ?].
  - by intros [= <-].
  - by intros [-> _].
Qed.

Lemma backTable_routes_witness :
  backTable test_router !! "notes" = Some (routes_for "notes" (table test_router)).
Proof.
  apply (backTable_routes "/" test_routes false test_router "notes" _ test_router_built).
  split; [reflexivity|]. vm_compute. discriminate.
Defined.

(** X2. For a table the constructor built, [termsForDestination] holds
    under a destination with routes, and under no other, a map whose
    keys, [__proto__] apart, are the names of the variables of all
    routes of the destination; under a name it holds the last variable
    of that name, in the order of the routes and of their variables.
    (An assignment under [__proto__] makes no property.) *)
Theorem termsForDestination_variables pre routes insensitive r d :
  Router pre routes insensitive = Some r →
  (termsForDestination r !! d = None ↔ routes_for d (table r) = [])
  ∧ ∀ ts, termsForDestination r !! d = Some ts →
      ∀ k, k ≠ "__proto__" →
           ts !! k
           = last (filter (λ v, name v = k) (routes_for d (table r) ≫= route_variables)).
Proof.
  intros Hr. destruct (Router_agree _ _ _ _ Hr d) as [_ ->].
  destruct (routes_for d (table r)) as [|ρ0 l]; split; try done.
  intros ts [= <-] k _. unfold terms_for. rewrite terms_fold_lookup, lookup_empty.
  by destruct (last _).
Qed.

Lemma termsForDestination_variables_witness :
  ∃ ts, termsForDestination test_router !! "photo-comment" = Some ts
        ∧ ts !! "commentId"
          = Some {| prefix := "+"; name := "commentId"; numeric := true;
                    optional := false; plural := false; slash := true |}
        ∧ ts !! "noteId" = None.
Proof.
  destruct (termsForDestination test_router !! "photo-comment") as [ts|] eqn:Hts;
    [|by vm_compute in Hts].
  exists ts. split; [done|].
  destruct (termsForDestination_variables "/" test_routes false test_router
              "photo-comment" test_router_built) as [_ Hk].
  rewrite !(Hk ts Hts) by discriminate. split; by vm_compute.
Defined.

(** ** What [stringify] returns and raises *)











(** ** What [match] binds, in full *)

Lemma decode_go_throw fuel : ∀ s e, decode_go fuel s = Throw e → e = URIError.
Proof.
  induction fuel as [|fuel IH]; intros s e; [done|].
  destruct s as [|c s]; [done|].
  assert (Hplain : bind (decode_go fuel s) (λ r, Ok (String c r)) = Throw e → e = URIError).
  { destruct (decode_go fuel s) as [r|e'] eqn:Hs; [done|]. intros [= <-]. by eapply IH. }
  destruct c as [[] [] [] [] [] [] [] []]; try exact Hplain.
  cbn [decode_go].
  destruct (escape_byte _) as [[b s1]|]; [|by intros [= <-]].
  match goal with |- match ?x with _ => _ end = _ → _ => destruct x as [[bs s2]|] end;
    [|by intros [= <-]].
  destruct (decode_go fuel s2) as [r|e'] eqn:Hs; [done|]. intros [= <-]. by eapply IH.
Qed.

Lemma bind_variable_throw v c acc e :
  bind_variable v c acc = Throw e → e = URIError ∧ plural v = true.
Proof.
  destruct acc as [ps rest]. unfold bind_variable.
  destruct (plural v); [|by destruct (String.eqb (prefix v) "...")].
  destruct (String.eqb (or_empty c) EmptyString); [done|].
  destruct (mapM decodeURIComponent (split "&" (or_empty c))) as [values|e'] eqn:Hm;
    [done|].
  intros [= <-]. apply mapM_throw in Hm as (t & _ & Ht).
  by apply decode_go_throw in Ht.
Qed.

Lemma bind_variables_throw vs : ∀ i m acc e,
  bind_variables vs i m acc = Throw e →
  e = URIError ∧ ∃ v, v ∈ vs ∧ plural v = true.
Proof.
  induction vs as [|v vs IH]; intros i m acc e; simpl; [done|].
  destruct (bind_variable v (arg m (i + 1)) acc) as [acc1|e'] eqn:Hv; simpl.
  - intros Hvs. apply IH in Hvs as (-> & v' & Hin & Hp).
    split; [done|]. exists v'. split; [by right|done].
  - intros [= <-]. apply bind_variable_throw in Hv as [-> Hp].
    split; [done|]. exists v. split; [by left|done].
Qed.

(** X5. [parse] raises nothing but the URIError of [decodeURIComponent],
    and only when a route of the table that the path matches has a
    plural variable. *)
Theorem parse_throws r p e :
  parse r p = Throw e →
  e = URIError
  ∧ ∃ ρ v, ρ ∈ table r ∧ is_Some (exec (regExp ρ) p)
           ∧ v ∈ route_variables ρ ∧ plural v = true.
Proof.
  unfold parse. induction (table r) as [|ρ tbl IH]; simpl; [done|].
  destruct (route_match ρ p) as [[res|]|e'] eqn:Hρ; simpl; [done| |].
  - intros Htbl. destruct (IH Htbl) as (-> & ρ' & v & Hin & Hm & Hv & Hp).
    split; [done|]. exists ρ', v. split; [by right|done].
  - intros [= <-]. unfold route_match in Hρ.
    destruct (exec (regExp ρ) p) as [m|] eqn:Hm; [|done].
    destruct (bind_variables _ _ _ _) as [[ps rest]|e2] eqn:Hvs; [done|].
    injection Hρ as <-. apply bind_variables_throw in Hvs as (-> & v & Hin & Hp).
    split; [done|]. exists ρ, v. split; [by left|]. split; [by eexists|done].
Qed.

Lemma parse_throws_witness :
  parse tag_router "/tags/a%2" = Throw URIError
  ∧ ∃ ρ v, ρ ∈ table tag_router ∧ is_Some (exec (regExp ρ) "/tags/a%2")
           ∧ v ∈ route_variables ρ ∧ plural v = true.
Proof.
  split; [by vm_compute|].
  apply (parse_throws tag_router "/tags/a%2" URIError). by vm_compute.
Defined.

(** What the loop over [variables] leaves under a key: what the last
    variable that writes the key has bound, of its kind, and without
    one what was there. *)
Lemma bind_variable_shaped v c ps rest ps' rest' :
  bind_variable v c (ps, rest) = Ok (ps', rest') →
  if binds v then ∃ val, ps' = <[name v := val]> ps ∧ shaped v val ∧ rest' = rest
  else ps' = ps.
Proof.
  unfold bind_variable, binds, shaped. destruct (plural v); simpl.
  - destruct (String.eqb (or_empty c) EmptyString).
    + intros [= <- <-]. eexists. split; [done|]. split; [|done].
      eexists. split; [done|]. constructor.
    + destruct (mapM decodeURIComponent _) as [values|]; [|done].
      intros [= <- <-]. eexists. split; [done|]. split; [|done].
      eexists. split; [done|].
      destruct (numeric v); apply Forall_fmap, Forall_true; intros t; by eexists.
  - destruct (String.eqb (prefix v) "..."); simpl; [by intros [= <- _]|].
    intros [= <- <-]. eexists. split; [done|]. split; [|done].
    destruct (numeric v); by eexists.
Qed.

Lemma bind_variables_binder vs : ∀ i m acc acc' k,
  bind_variables vs i m acc = Ok acc' →
  match binder k vs with
  | Some v => ∃ val, acc'.1 !! k = Some val ∧ shaped v val
  | None => acc'.1 !! k = acc.1 !! k
  end.
Proof.
  unfold binder.
  induction vs as [|v vs IH]; intros i m [ps rest] [ps' rest'] k; simpl.
  - by intros [= <- <-].
  - destruct (bind_variable v (arg m (i + 1)) (ps, rest)) as [[ps1 rest1]|] eqn:Hv;
      simpl; [|done].
    intros Hvs. specialize (IH _ _ _ _ k Hvs). simpl in IH.
    apply bind_variable_shaped in Hv. rewrite filter_cons.
    destruct (decide (name v = k ∧ binds v = true)) as [[<- Hb]|Hno].
    + rewrite Hb in Hv. destruct Hv as (val & -> & Hval & _).
      destruct (filter _ vs) as [|v' vs'] eqn:Hf; simpl.
      * simpl in IH. rewrite IH, lookup_insert_eq. by exists val.
      * destruct (last (v' :: vs')) eqn:Hl; [done|]. by apply last_None in Hl.
    + destruct (last (filter _ vs)); [done|]. rewrite IH.
      destruct (binds v) eqn:Hb.
      * destruct Hv as (val & -> & _). rewrite lookup_insert_ne; [done|].
        intros Hk. by apply Hno.
      * by subst.
Qed.

Lemma binder_Some k vs :
  is_Some (binder k vs) ↔ ∃ v, v ∈ vs ∧ name v = k ∧ binds v = true.
Proof.
  unfold binder. rewrite last_is_Some. split.
  - intros Hne. destruct (filter _ vs) as [|v l] eqn:Hf; [done|].
    assert (Hin : v ∈ filter (λ v, name v = k ∧ binds v = true) vs)
      by (rewrite Hf; by left).
    apply list_elem_of_filter in Hin as [[Hk Hb] Hin]. by exists v.
  - intros (v & Hin & Hk & Hb) Hnil.
    assert (Hv : v ∈ filter (λ v, name v = k ∧ binds v = true) vs)
      by (by apply list_elem_of_filter).
    rewrite Hnil in Hv. by apply elem_of_nil in Hv.
Qed.

Lemma bind_variables_rest vs : ∀ i m acc acc',
  bind_variables vs i m acc = Ok acc' →
  acc'.2 ≠ acc.2 → ∃ v, v ∈ vs ∧ binds v = false.
Proof.
  induction vs as [|v vs IH]; intros i m [ps rest] [ps' rest']; simpl.
  - by intros [= <- <-].
  - destruct (bind_variable v (arg m (i + 1)) (ps, rest)) as [[ps1 rest1]|] eqn:Hv;
      simpl; [|done].
    intros Hvs Hne. apply bind_variable_shaped in Hv.
    destruct (binds v) eqn:Hb.
    + destruct Hv as (val & _ & _ & ->).
      destruct (IH _ _ _ _ Hvs Hne) as (v' & Hin & Hb').
      exists v'. split; [by right|done].
    + exists v. split; [by left|done].
Qed.

(** X6. The object [match] returns has the destination of the route; its
    [parameters] have a key, [__proto__] apart, for every variable of
    the route other than a singular remainder, and no other key; and its
    [path] is undefined unless the route has a singular remainder.  (An
    assignment under [__proto__] makes no property.) *)
Theorem match_keys ρ p res :
  route_match ρ p = Ok (Some res) →
  res_destination res = destination ρ
  ∧ (∀ k, k ≠ "__proto__" →
          (is_Some (parameters res !! k)
           ↔ ∃ v, v ∈ route_variables ρ ∧ name v = k ∧ binds v = true))
  ∧ (path res ≠ Undefined → ∃ v, v ∈ route_variables ρ ∧ binds v = false).
Proof.
  unfold route_match. destruct (exec (regExp ρ) p) as [m|]; [|done].
  destruct (bind_variables _ _ _ _) as [[ps rest]|] eqn:Hvs; [|done].
  intros [= <-]. simpl. split; [done|]. split.
  - intros k _. rewrite <- binder_Some.
    pose proof (bind_variables_binder _ _ _ _ _ k Hvs) as Hk. simpl in Hk.
    destruct (binder k (route_variables ρ)) as [v|].
    + destruct Hk as (val & -> & _). split; by eexists.
    + rewrite Hk, lookup_empty. split; by intros [? ?].
  - intros Hrest. by apply (bind_variables_rest _ _ _ _ _ Hvs).
Qed.

Lemma match_keys_witness :
  ∃ ρ res, ρ ∈ table test_router
    ∧ route_match ρ "/a/x/b/y" = Ok (Some res)
    ∧ res_destination res = "ab"
    ∧ (∀ k, k ≠ "__proto__" →
            (is_Some (parameters res !! k)
             ↔ ∃ v, v ∈ route_variables ρ ∧ name v = k ∧ binds v = true)).
Proof.
  destruct (table test_router !! 6) as [ρ|] eqn:Hρ; [|by vm_compute in Hρ].
  destruct (route_match ρ "/a/x/b/y") as [[res|]|] eqn:Hres;
    [|vm_compute in Hρ; injection Hρ as <-; by vm_compute in Hres..].
  exists ρ, res. split; [by eapply list_elem_of_lookup_2|]. split; [done|].
  destruct (match_keys ρ "/a/x/b/y" res Hres) as (Hd & Hk & _).
  split; [|done]. rewrite Hd. vm_compute in Hρ. by injection Hρ as <-.
Defined.

(** X7. Under every key of the [parameters] that [match] returns, the
    value is of the kind of the last variable of that name that is no
    singular remainder: an array when it is plural, of numbers when it
    is numeric and of strings otherwise; a number or a string when it is
    singular. *)
Theorem match_shapes ρ p res k val :
  route_match ρ p = Ok (Some res) →
  parameters res !! k = Some val →
  ∃ v, binder k (route_variables ρ) = Some v ∧ shaped v val.
Proof.
  unfold route_match. destruct (exec (regExp ρ) p) as [m|]; [|done].
  destruct (bind_variables _ _ _ _) as [[ps rest]|] eqn:Hvs; [|done].
  intros [= <-]. simpl. intros Hval.
  pose proof (bind_variables_binder _ _ _ _ _ k Hvs) as Hk. simpl in Hk.
  destruct (binder k (route_variables ρ)) as [v|].
  - destruct Hk as (val' & Hval' & Hsh). exists v. split; [done|]. congruence.
  - by rewrite Hk, lookup_empty in Hval.
Qed.

Lemma match_shapes_witness :
  ∃ v, binder "photoIds" (route_variables (default notes_route (table test_router !! 0)))
       = Some v
       ∧ shaped v (Arr [Num (Int 10); Num (Int 20)]).
Proof.
  apply (match_shapes _ "/photos/10&20" (photos_result [10; 20]%Z)); by vm_compute.
Defined.

(** ** What [compile] builds, in full *)

Lemma lit_groups s : ∀ r, lit s = Some r → ngroups r = 0.
Proof. intros r Hr. by destruct (lit_matches _ _ Hr). Qed.

Lemma escaped_groups e r : escaped e = Some r → ngroups r = 0.
Proof. intros Hr. by destruct (escaped_matches _ _ Hr). Qed.

Lemma after_slash_groups sl o r :
  (∀ r0, o = Some r0 → ngroups r0 = 0) → after_slash sl o = Some r → ngroups r = 0.
Proof.
  intros Ho. destruct o as [r0|]; [|done]. intros [= <-]. simpl.
  rewrite (Ho r0 eq_refl). by destruct sl.
Qed.

Lemma positional_name i : positional i ≠ EmptyString.
Proof.
  unfold positional. destruct (digits_head (N.of_nat i)) as (c & s & -> & _). done.
Qed.

(** One token: the terms and variables it pushes and the groups of the
    text it returns. *)
Lemma callback_pushes m st :
  ∃ ts, terms (callback m st).1 = terms st ++ ts
        ∧ variables (callback m st).1 = variables st ++ vars_of ts
        ∧ Forall well_formed (vars_of ts)
        ∧ ∀ r, (callback m st).2 = Some r → ngroups r = length (vars_of ts).
Proof.
  unfold callback.
  destruct (is_truthy (arg m 3)) eqn:Hpre.
  - set (v := {| prefix := text (arg m 3) |}).
    assert (Hv : well_formed v).
    { unfold well_formed, v; simpl. split; [|split; [|split]].
      - destruct (is_truthy (arg m 4)) eqn:Hnm; [|apply positional_name].
        by destruct (arg m 4) as [[|? ?]|].
      - by destruct (arg m 3) as [[|? ?]|].
      - done.
      - by intros ->%String.eqb_eq. }
    destruct (String.eqb (text (arg m 3)) "...");
      [|destruct (String.eqb (text (arg m 5)) "&")].
    + exists [Var v; Path]. simpl. repeat split; [by constructor|].
      intros r [= <-]. simpl. by destruct (text (arg m 1)).
    + exists [Var v]. simpl. repeat split; [by constructor|].
      intros r [= <-]. simpl.
      by destruct (text (arg m 1)), (String.eqb (text (arg m 3)) "+"),
        (String.eqb (text (arg m 3)) "*").
    + exists [Var v]. simpl. repeat split; [by constructor|].
      intros r [= <-].
      by destruct (text (arg m 1)), (String.eqb (text (arg m 3)) "+"),
        (String.eqb (text (arg m 3)) "*"), (String.eqb (text (arg m 5)) "?").
  - destruct (is_truthy (arg m 2)); [|destruct (is_truthy (arg m 7));
      [|destruct (is_truthy (arg m 6))]];
      eexists [Literal _]; simpl; rewrite app_nil_r; repeat split; try done;
      intros r Hr;
      first [ eapply after_slash_groups; [|exact Hr]; apply escaped_groups
            | by eapply lit_groups ].
Qed.

Lemma replace_pushes ps : ∀ st,
  ∃ ts, terms (replace ps st).1 = terms st ++ ts
        ∧ variables (replace ps st).1 = variables st ++ vars_of ts
        ∧ Forall well_formed (vars_of ts)
        ∧ ∀ r, (replace ps st).2 = Some r → ngroups r = length (vars_of ts).
Proof.
  induction ps as [|p ps IH]; intros st; simpl.
  - exists []. rewrite !app_nil_r. repeat split; [done|]. by intros r [= <-].
  - destruct p as [c|m].
    + destruct (IH st) as (ts & Ht & Hv & Hwf & Hg).
      destruct (replace ps st) as [st2 r2]; simpl in *.
      exists ts. repeat split; try done.
      intros r. destruct (is_syntax c); [done|].
      destruct r2 as [b|]; [|done]. intros [= <-]. simpl.
      by rewrite (Hg b eq_refl).
    + destruct (callback_pushes m st) as (ts1 & Ht1 & Hv1 & Hwf1 & Hg1).
      destruct (callback m st) as [st1 r1]; simpl in *.
      destruct (IH st1) as (ts2 & Ht2 & Hv2 & Hwf2 & Hg2).
      destruct (replace ps st1) as [st2 r2]; simpl in *.
      exists (ts1 ++ ts2). unfold vars_of in *. rewrite omap_app.
      rewrite Ht2, Ht1, Hv2, Hv1, <- !app_assoc. repeat split.
      * by apply Forall_app.
      * intros r. destruct r1 as [a|]; [|done]. destruct r2 as [b|]; [|done].
        intros [= <-]. simpl. by rewrite (Hg1 a eq_refl), (Hg2 b eq_refl), length_app.
Qed.

Lemma compile_source pattern d insensitive ρ :
  compile pattern d insensitive = Some ρ →
  ∃ r, regExp ρ = {| source := Seq Bol (Seq r Eol); ignoreCase := false |}
       ∧ ngroups r = length (route_variables ρ)
       ∧ route_variables ρ = vars_of (route_terms ρ)
       ∧ Forall well_formed (route_variables ρ).
Proof.
  unfold compile, compileRegExp.
  destruct (replace_pushes (scan expression pattern)
              {| counter := 0; variables := []; terms := [] |})
    as (ts & Ht & Hv & Hwf & Hg).
  destruct (replace _ _) as [st re]; simpl in *.
  destruct re as [r|]; [|done]. intros [= <-]; simpl.
  exists r. rewrite Hv, Ht. split; [done|]. split; [by apply Hg|]. done.
Qed.

(** X8. A plain pattern compiles, and the variables of the route are
    its variable terms, in order; each has a name and a prefix that are
    not empty, is numeric exactly when its prefix is [+], and is not
    both optional and plural; and the expression has one group for each
    of them. *)
Theorem compile_variables pattern d insensitive :
  plain pattern = true →
  ∃ ρ, compile pattern d insensitive = Some ρ
       ∧ route_variables ρ = vars_of (route_terms ρ)
       ∧ Forall well_formed (route_variables ρ)
       ∧ ngroups (source (regExp ρ)) = length (route_variables ρ).
Proof.
  intros Hplain. destruct (compile_defined pattern d insensitive Hplain) as [ρ Hc].
  exists ρ. split; [done|].
  destruct (compile_source _ _ _ _ Hc) as (r & -> & Hg & Hv & Hwf).
  split; [done|]. split; [done|]. simpl. lia.
Qed.

Lemma compile_variables_witness :
  Forall well_formed (route_variables comment_route)
  ∧ ngroups (source (regExp comment_route)) = 2.
Proof.
  destruct (compile_variables "/photo/+photoId/comments/+commentId" "photo-comment"
              false) as (ρ & Hc & _ & Hwf & Hg); [by vm_compute|].
  assert (Hc' : compile "/photo/+photoId/comments/+commentId" "photo-comment" false
                = Some comment_route) by (vm_compute; reflexivity).
  rewrite Hc' in Hc. apply (inj Some) in Hc. subst ρ.
  split; [done|]. by rewrite Hg.
Defined.

(** ** The array of a match *)

Lemma clear_caps_length cnt : ∀ idx caps, length (clear_caps idx cnt caps) = length caps.
Proof.
  induction cnt as [|cnt IH]; intros idx caps; simpl; [done|].
  by rewrite length_insert, IH.
Qed.

Lemma RepeatMatcher_keeps m idx cnt :
  keeps m → ∀ fuel min max, keeps (RepeatMatcher m idx cnt fuel min max).
Proof.
  intros Hm. induction fuel as [|fuel IH]; intros min max s caps k res; simpl; [done|].
  assert (Hstep : ∀ res',
    m s (clear_caps idx cnt caps)
      (λ s' caps',
         if Nat.eqb min 0 && Nat.eqb (String.length s') (String.length s) then None
         else RepeatMatcher m idx cnt fuel (pred min) (pred <$> max) s' caps' k)
    = Some res' →
    ∃ s' caps', k s' caps' = Some res' ∧ length caps' = length caps).
  { intros res' Hres. apply Hm in Hres as (s1 & caps1 & Hd & Hl1).
    destruct (Nat.eqb min 0 && _); [done|].
    apply IH in Hd as (s2 & caps2 & Hk & Hl2).
    exists s2, caps2. split; [done|]. by rewrite Hl2, Hl1, clear_caps_length. }
  assert (Hdirect : k s caps = Some res →
    ∃ s' caps', k s' caps' = Some res ∧ length caps' = length caps) by eauto.
  destruct max as [[|n]|]; [done| |].
  - destruct (Nat.eqb min 0); [|by apply Hstep].
    destruct (m s _ _) as [z|] eqn:Hz; [|done].
    intros [= <-]. by apply Hstep.
  - destruct (Nat.eqb min 0); [|by apply Hstep].
    destruct (m s _ _) as [z|] eqn:Hz; [|done].
    intros [= <-]. by apply Hstep.
Qed.

Lemma rmatch_keeps ic n0 r : ∀ idx, keeps (rmatch ic n0 r idx).
Proof.
  induction r as [|a| |neg items|r1 IH1 r2 IH2|r1 IH1 r2 IH2|min max r1 IH1
                  |r1 IH1|r1 IH1| |];
    intros idx s caps k res; cbn [rmatch].
  - eauto.
  - destruct s as [|c s]; [done|]. destruct (char_eq ic a c); [|done]. eauto.
  - destruct s as [|c s]; [done|]. destruct (is_line_terminator c); [done|]. eauto.
  - destruct s as [|c s]; [done|]. destruct (xorb neg _); [|done]. eauto.
  - intros H1. apply IH1 in H1 as (s1 & caps1 & H2 & Hl1).
    apply IH2 in H2 as (s2 & caps2 & Hk & Hl2).
    exists s2, caps2. split; [done|]. by rewrite Hl2.
  - destruct (rmatch ic n0 r1 idx s caps k) as [z|] eqn:Hz.
    + intros [= <-]. by apply IH1 in Hz.
    + intros H2. by apply IH2 in H2.
  - apply RepeatMatcher_keeps, IH1.
  - intros H1. apply IH1 in H1 as (s1 & caps1 & Hk & Hl1).
    eexists _, _. split; [exact Hk|]. by rewrite length_insert.
  - apply IH1.
  - destruct (Nat.eqb _ _); [|done]. eauto.
  - destruct s; [|done]. eauto.
Qed.

Lemma str_take_length (s : string) : str_take (String.length s) s = s.
Proof. induction s as [|c s IH]; simpl; [done|]. by rewrite IH. Qed.

(** An anchored expression matches at the start of the input or
    nowhere, and to its end. *)
Lemma exec_anchored r p m :
  exec {| source := Seq Bol (Seq r Eol); ignoreCase := false |} p = Some m →
  m !! 0 = Some (Some p) ∧ length m = S (ngroups r).
Proof.
  set (re := {| source := Seq Bol (Seq r Eol); ignoreCase := false |}).
  assert (Hlater : ∀ fuel s, String.length s < String.length p →
    exec_from re (String.length p) fuel s = None).
  { induction fuel as [|fuel IH]; intros s Hs;
      assert (Hne : Nat.eqb (String.length s) (String.length p) = false)
        by (apply Nat.eqb_neq; lia);
      simpl; unfold match_at; cbn [re source ignoreCase rmatch]; rewrite Hne.
    - by destruct s.
    - destruct s as [|c s]; [done|]. apply IH. simpl in Hs. lia. }
  unfold exec.
  assert (Hfirst : ∀ fuel, exec_from re (String.length p) fuel p = Some m →
    ∃ z, match_at re (String.length p) p = Some z ∧ m = match_array p z).
  { intros fuel. destruct fuel as [|fuel]; simpl.
    - destruct (match_at re (String.length p) p) as [z|]; [|by destruct p].
      intros [= <-]. by exists z.
    - destruct (match_at re (String.length p) p) as [z|]; [intros [= <-]; by exists z|].
      destruct p as [|c p']; [done|]. rewrite Hlater; [done|simpl; lia]. }
  intros Hm. apply Hfirst in Hm as (z & Hz & ->).
  unfold match_at in Hz. cbn [re source ignoreCase rmatch ngroups Nat.add] in Hz.
  rewrite Nat.eqb_refl in Hz.
  apply rmatch_keeps in Hz as (s' & caps' & Hk & Hl).
  destruct s' as [|? ?]; [|done]. injection Hk as <-.
  simpl. rewrite Nat.sub_0_r, str_take_length. split; [done|].
  rewrite Hl, length_replicate. lia.
Qed.

(** X9. The expression of the route a plain pattern compiles to matches
    a path as a whole or not at all, and the array of a match has the
    path first and then one entry for each variable of the route: the
    loop over [variables] in [match] reads inside the array. *)
Theorem match_array_shape pattern d insensitive :
  plain pattern = true →
  ∃ ρ, compile pattern d insensitive = Some ρ
       ∧ ∀ p m, exec (regExp ρ) p = Some m →
                m !! 0 = Some (Some p) ∧ length m = S (length (route_variables ρ)).
Proof.
  intros Hplain. destruct (compile_defined pattern d insensitive Hplain) as [ρ Hc].
  exists ρ. split; [done|]. intros p m.
  destruct (compile_source _ _ _ _ Hc) as (r & -> & Hg & _).
  rewrite <- Hg. apply exec_anchored.
Qed.

Lemma match_array_shape_witness :
  ∃ m, exec (regExp comment_route) "/photo/10/comments/20" = Some m
       ∧ m !! 0 = Some (Some "/photo/10/comments/20") ∧ length m = 3.
Proof.
  destruct (exec (regExp comment_route) "/photo/10/comments/20") as [m|] eqn:Hm;
    [|by vm_compute in Hm].
  exists m. split; [done|].
  destruct (match_array_shape "/photo/+photoId/comments/+commentId" "photo-comment"
              false) as (ρ & Hc & Hshape); [by vm_compute|].
  assert (Hc' : compile "/photo/+photoId/comments/+commentId" "photo-comment" false
                = Some comment_route) by (vm_compute; reflexivity).
  rewrite Hc' in Hc. apply (inj Some) in Hc. subst ρ.
  by apply Hshape.
Defined.

(** ** What [observePath] emits *)

Lemma terms_for_lookup ρs k v :
  terms_for ρs !! k = Some v → name v = k ∧ ∃ ρ, ρ ∈ ρs ∧ v ∈ route_variables ρ.
Proof.
  unfold terms_for. rewrite terms_fold_lookup, lookup_empty.
  destruct (last _) as [v'|] eqn:Hl; [|done]. intros [= ->].
  apply last_Some_elem_of, list_elem_of_filter in Hl as [Hk Hin].
  split; [done|]. apply list_elem_of_bind in Hin as (ρ & Hv & Hρ). by exists ρ.
Qed.

Lemma terms_for_empty ρs :
  terms_for ρs = ∅ ↔ ∀ ρ, ρ ∈ ρs → route_variables ρ = [].
Proof.
  split.
  - intros Hts ρ Hin. destruct (route_variables ρ) as [|v vs] eqn:Hvs; [done|].
    assert (Hv : v ∈ ρs ≫= route_variables).
    { apply list_elem_of_bind. exists ρ. split; [|done]. rewrite Hvs. by left. }
    assert (Hk : is_Some (terms_for ρs !! name v)).
    { unfold terms_for. rewrite terms_fold_lookup, lookup_empty.
      destruct (last _) eqn:Hl; [by eexists|]. apply last_None in Hl.
      assert (Hf : v ∈ filter (λ v0, name v0 = name v) (ρs ≫= route_variables))
        by (by apply list_elem_of_filter).
      rewrite Hl in Hf. by apply elem_of_nil in Hf. }
    rewrite Hts, lookup_empty in Hk. by destruct Hk.
  - intros Hall. unfold terms_for.
    assert (Hnil : ρs ≫= route_variables = []); [|by rewrite Hnil].
    induction ρs as [|ρ ρs IH]; [done|]. simpl.
    rewrite (Hall ρ) by left. apply IH. intros ρ' Hin. apply Hall. by right.
Qed.

Lemma table_compiled pre routes insensitive r ρ :
  Router pre routes insensitive = Some r → ρ ∈ table r →
  ∃ e, e ∈ routes ∧ compile (pre +:+ e.1) e.2 insensitive = Some ρ.
Proof.
  intros Hr Hin. destruct (add_routes_table _ _ _ _ _ Hr) as (ρs & Htbl & HF).
  simpl in Htbl. rewrite Htbl in Hin.
  apply list_elem_of_lookup in Hin as [i Hi].
  destruct (Forall2_lookup_r _ _ _ _ _ HF Hi) as (e & He & Hc).
  exists e. split; [by eapply list_elem_of_lookup_2|done].
Qed.

Lemma mapM_some {A B} (f : A → result (list B)) (g : A → bool) (x : result (list B))
    (l : list A) :
  (∀ a, a ∈ l → f a = if g a then x else Ok []) →
  bind (mapM f l) (λ emitted, Ok (concat emitted))
  = if decide (length (filter g l) = 0) then Ok []
    else bind x (λ bs, Ok (concat (replicate (length (filter g l)) bs))).
Proof.
  induction l as [|a l IH]; intros Hall; [done|]. simpl.
  rewrite (Hall a) by left.
  specialize (IH (λ a' Hin, Hall a' (list_elem_of_further _ _ _ Hin))).
  rewrite filter_cons. destruct (g a) eqn:Hg; simpl.
  - destruct x as [bs|e]; simpl; [|done].
    destruct (mapM f l) as [bss|e]; simpl in *.
    + case_decide as Hl.
      * injection IH as ->. rewrite Hl. simpl. done.
      * injection IH as ->. done.
    + by case_decide.
  - destruct (mapM f l) as [bss|e]; simpl in *; exact IH.
Qed.

Lemma filter_all {A} (g : A → bool) (l : list A) :
  (∀ a, a ∈ l → g a = true) → filter g l = l.
Proof.
  induction l as [|a l IH]; intros Hall; [done|].
  rewrite filter_cons, (Hall a) by left. simpl. f_equal.
  apply IH. intros a' Hin. apply Hall. by right.
Qed.

Lemma concat_singletons {A} n (a : A) : concat (replicate n [a]) = replicate n a.
Proof. induction n as [|n IH]; [done|]. simpl. by rewrite IH. Qed.

(** X10. For a table the constructor built and a destination that has
    routes, none of whose variables is named like a property of
    [Object.prototype], the first pass of [observePath] calls [emit]
    with [stringify(state)] once for every name of a variable of these
    routes, the names of plural variables apart whose parameter is there
    and is no array, and raises what [stringify] raises; without such a
    name, it emits nothing at all and does not call [stringify].  When
    the plural parameters that are there are arrays, the names are all
    the names; they are none when the routes of the destination have no
    variable. *)
Theorem observePath_emits pre routes insensitive r st ts :
  Router pre routes insensitive = Some r →
  termsForDestination r !! st_destination st = Some ts →
  (∀ nm, is_Some (ts !! nm) → nm ∉ Object_prototype) →
  observePath r st
  = (if decide (length (filter (observed st) (map_to_list ts)) = 0) then Ok []
     else bind (stringify r st) (λ p,
            Ok (replicate (length (filter (observed st) (map_to_list ts))) p)))
  ∧ ((∀ nm v p, ts !! nm = Some v → plural v = true → present st nm ≠ Some (Prim p)) →
     length (filter (observed st) (map_to_list ts)) = size ts)
  ∧ (size ts = 0
     ↔ ∀ ρ, ρ ∈ routes_for (st_destination st) (table r) → route_variables ρ = []).
Proof.
  intros Hr Hts _.
  destruct (Router_agree _ _ _ _ Hr (st_destination st)) as [_ Ht].
  rewrite Hts in Ht.
  destruct (routes_for (st_destination st) (table r)) as [|ρ0 ρs] eqn:Hρs; [done|].
  injection Ht as ->. split; [|split].
  - unfold observePath, observeProperty, changeDestination. rewrite Hts.
    rewrite (mapM_some _ (observed st) (bind (stringify r st) (λ p, Ok [p]))).
    + case_decide; [done|].
      destruct (stringify r st) as [p|e]; [|done]. simpl. f_equal.
      apply concat_singletons.
    + intros [nm term] Hin. apply elem_of_map_to_list in Hin.
      apply terms_for_lookup in Hin as (Hname & ρ & Hρ & Hv).
      assert (Hnm : nm ≠ EmptyString).
      { rewrite <- Hname.
        assert (Htbl : ρ ∈ table r).
        { rewrite <- Hρs in Hρ. unfold routes_for in Hρ.
          by apply list_elem_of_filter in Hρ as [_ ?]. }
        destruct (table_compiled _ _ _ _ _ Hr Htbl) as (e & _ & Hc).
        destruct (compile_source _ _ _ _ Hc) as (_ & _ & _ & _ & Hwf).
        rewrite Forall_forall in Hwf. by destruct (Hwf _ Hv). }
      unfold changeParameter, observeRangeChange, observed. simpl.
      apply String.eqb_neq in Hnm. rewrite Hnm.
      destruct (present st nm) as [[p|l]|]; by destruct (plural term).
  - intros Harr. rewrite <- length_map_to_list. f_equal.
    apply filter_all. intros [nm v] Hin. apply elem_of_map_to_list in Hin.
    unfold observed. simpl. destruct (plural v) eqn:Hp; [|done].
    destruct (present st nm) as [[p|l]|] eqn:Hpres; [|done|done].
    by destruct (Harr nm v p Hin Hp).
  - rewrite map_size_empty_iff. apply terms_for_empty.
Qed.

Lemma observePath_emits_witness :
  observePath test_router (plain_state "photo-comment" comment_parameters)
  = Ok [Some "/photo/11/comments/0"; Some "/photo/11/comments/0"]
  ∧ observePath test_router (plain_state "colon" ∅) = Ok [].
Proof.
  assert (Hown : ∀ (ts : gmap string variable),
    Forall (λ e, e.1 ∉ Object_prototype) (map_to_list ts) →
    ∀ nm, is_Some (ts !! nm) → nm ∉ Object_prototype).
  { intros ts HF nm [v Hv]. rewrite Forall_forall in HF.
    apply (HF (nm, v)). by apply elem_of_map_to_list. }
  split.
  - destruct (termsForDestination test_router !! "photo-comment") as [ts|] eqn:Hts;
      [|by vm_compute in Hts].
    destruct (observePath_emits "/" test_routes false test_router
                (plain_state "photo-comment" comment_parameters) ts
                test_router_built Hts) as [-> _].
    + apply Hown. vm_compute in Hts. injection Hts as <-.
      apply (bool_decide_unpack _). vm_compute. reflexivity.
    + vm_compute in Hts. injection Hts as <-. by vm_compute.
  - destruct (termsForDestination test_router !! "colon") as [ts|] eqn:Hts;
      [|by vm_compute in Hts].
    destruct (observePath_emits "/" test_routes false test_router
                (plain_state "colon" ∅) ts test_router_built Hts) as [-> _].
    + apply Hown. vm_compute in Hts. injection Hts as <-.
      apply (bool_decide_unpack _). vm_compute. reflexivity.
    + vm_compute in Hts. injection Hts as <-. by vm_compute.
Defined.

(** ** Routes that end in a remainder *)



Lemma ends_in_rest_app ts0 v : Forall covered ts0 → ends_in_rest (ts0 ++ [Var v; Path]).
Proof.
  induction 1 as [|t ts Ht Hts IH]; simpl; [constructor|]. by constructor.
Qed.


(** The remainder takes the text to its end. *)
Lemma dot_run n0 idx s caps k res :
  str_forallb (λ c, negb (is_line_terminator c)) s = true →
  k EmptyString caps = Some res →
  rmatch false n0 (Star Dot) idx s caps k = Some res.
Proof.
  intros Hs Hk. cbn [rmatch ngroups Nat.add].
  rewrite <- (app_nil_r_str s).
  apply (star_run _ _ (char_matcher_dot n0 idx)); [|done|done|done].
  rewrite app_nil_r_str. lia.
Qed.














(** * The location controller *)

Lemma hashbang_miss n0 (c : ascii) s :
  c ≠ "#"%char → match_at LocationController.hashbang n0 (String c s) = None.
Proof.
  intros Hc. unfold match_at. cbn [LocationController.hashbang source ignoreCase rmatch].
  unfold char_eq, canon. by rewrite (proj2 (Ascii.eqb_neq _ _)) by done.
Qed.

(** The search for the hashbang skips a text without a hash. *)
Lemma exec_from_hashless n0 b : ∀ fuel s,
  hashless b → String.length b ≤ fuel →
  exec_from LocationController.hashbang n0 fuel (b +:+ s)
  = exec_from LocationController.hashbang n0 (fuel - String.length b) s.
Proof.
  unfold hashless. induction b as [|c b IH]; intros fuel s Hb Hfuel.
  - simpl. by rewrite Nat.sub_0_r.
  - cbn [str_forallb] in Hb. apply andb_true_iff in Hb as [Hc Hb].
    apply negb_true_iff, Ascii.eqb_neq in Hc.
    destruct fuel as [|fuel]; [simpl in Hfuel; lia|].
    rewrite app_cons. cbn [exec_from]. rewrite hashbang_miss by done.
    rewrite IH; [done|done|simpl in Hfuel; lia].
Qed.

Lemma exec_hashless s : hashless s → exec LocationController.hashbang s = None.
Proof.
  intros Hs. unfold exec.
  rewrite <- (app_nil_r_str s) at 3. rewrite exec_from_hashless by done.
  rewrite Nat.sub_diag. simpl. reflexivity.
Qed.

Lemma exec_hashbang b p :
  hashless b → str_forallb (λ c, negb (is_line_terminator c)) p = true →
  exec LocationController.hashbang (b +:+ "#!/" +:+ p)
  = Some [Some ("#!/" +:+ p); Some p].
Proof.
  intros Hb Hp. unfold exec. rewrite exec_from_hashless; [|done|].
  2: { rewrite length_app_str. lia. }
  generalize (String.length (b +:+ "#!/" +:+ p)) at 1. intros n0.
  generalize (String.length (b +:+ "#!/" +:+ p) - String.length b). intros fuel.
  assert (Hat : match_at LocationController.hashbang n0 ("#!/" +:+ p)
                = Some (EmptyString, [Some p])).
  { unfold match_at.
    cbn [LocationController.hashbang source ignoreCase ngroups Nat.add replicate].
    change ("#!/" +:+ p) with (String "#" (String "!" (String "/" p))).
    remember (Star Dot) as dots eqn:Hdots. cbn [rmatch]. unfold char_eq, canon.
    rewrite !Ascii.eqb_refl. subst dots.
    apply dot_run; [done|]. cbn [String.length].
    by rewrite Nat.sub_0_r, str_take_length. }
  assert (Hfirst : exec_from LocationController.hashbang n0 fuel ("#!/" +:+ p)
                   = Some (match_array ("#!/" +:+ p) (EmptyString, [Some p]))).
  { destruct fuel; simpl exec_from; by rewrite Hat. }
  rewrite Hfirst. unfold match_array. cbn [fst snd String.length].
  by rewrite Nat.sub_0_r, str_take_length.
Qed.

Lemma indexOf_markless s : markless s → LocationController.indexOf "?" s = None.
Proof.
  unfold markless. induction s as [|c s IH]; [done|]. cbn [str_forallb].
  intros [Hc Hs]%andb_true_iff. simpl. apply negb_true_iff in Hc. rewrite Hc.
  by rewrite IH.
Qed.

Lemma indexOf_mark a q :
  markless a → LocationController.indexOf "?" (a +:+ "?" +:+ q) = Some (String.length a).
Proof.
  unfold markless. induction a as [|c a IH]; [done|]. cbn [str_forallb].
  intros [Hc Hs]%andb_true_iff. rewrite app_cons. simpl.
  apply negb_true_iff in Hc. rewrite Hc. by rewrite IH.
Qed.

Lemma str_take_prefix (a s : string) : str_take (String.length a) (a +:+ s) = a.
Proof. induction a as [|c a IH]; simpl; [by destruct s|]. by rewrite IH. Qed.

Lemma str_drop_prefix (a s : string) : str_drop (String.length a) (a +:+ s) = s.
Proof. induction a as [|c a IH]; simpl; [by destruct s|]. by rewrite IH. Qed.

(** X12. Reading a hashbang location.  When the text before the first
    hashbang holds no hash and the text after it no line terminator,
    [_computeRemainingPath] sets [path] to the text after the hashbang
    up to its first question mark and [query] to what follows that
    mark; without a question mark [query] is the empty string.  The
    base of the controller plays no part. *)
Theorem hashbang_location b a this :
  hashless b → markless a → one_line a →
  LocationController.computeRemainingPath (b +:+ "#!/" +:+ a) this
  = LocationController.set_location this EmptyString a
  ∧ ∀ q, one_line q →
      LocationController.computeRemainingPath (b +:+ "#!/" +:+ a +:+ "?" +:+ q) this
      = LocationController.set_location this q a.
Proof.
  intros Hb Ha [Hla _]. split.
  - unfold LocationController.computeRemainingPath.
    rewrite exec_hashbang by done. cbn [lookup list_lookup mjoin option_join].
    by rewrite indexOf_markless.
  - intros q [Hlq _]. unfold LocationController.computeRemainingPath.
    rewrite exec_hashbang; [|done|].
    2: { rewrite str_forallb_app, Hla. simpl. exact Hlq. }
    cbn [lookup list_lookup mjoin option_join].
    rewrite indexOf_mark by done.
    rewrite str_take_prefix.
    replace (String.length a + 1) with (String.length (a +:+ "?")).
    2: { rewrite length_app_str. simpl. lia. }
    rewrite <- (app_assoc_str a "?" q), str_drop_prefix. done.
Qed.

Lemma hashbang_location_witness :
  LocationController.computeRemainingPath "http://h/app#!/notes/3?tab=1"
    (hash_controller "http://h/app")
  = LocationController.set_location (hash_controller "http://h/app") "tab=1" "notes/3".
Proof.
  apply (hashbang_location "http://h/app" "notes/3" (hash_controller "http://h/app"));
    by vm_compute.
Defined.

(** X13. Reading a location without a hash.  With a base that starts the
    location, [_computeRemainingPath] sets [path] to what follows the
    base, less one slash at its head, and [query] to the empty string:
    a search part of the location stays in [path].  Without a base, or
    with one that does not start the location, it changes nothing. *)
Theorem base_location b rest this :
  hashless (b +:+ rest) →
  (LocationController.base this = Some b → b ≠ EmptyString →
   LocationController.computeRemainingPath (b +:+ rest) this
   = LocationController.set_location this EmptyString
       match rest with
       | String "/" rest' => rest'
       | _ => rest
       end)
  ∧ (∀ location,
       hashless location →
       match LocationController.base this with
       | Some b' => b' = EmptyString ∨ str_take (String.length b') location ≠ b'
       | None => True
       end →
       LocationController.computeRemainingPath location this = this).
Proof.
  intros Hl. split.
  - intros Hbase Hb. unfold LocationController.computeRemainingPath.
    rewrite exec_hashless, Hbase by done.
    rewrite (proj2 (String.eqb_neq _ _) Hb).
    rewrite (proj2 (Nat.ltb_ge _ _)) by (rewrite length_app_str; lia).
    by rewrite str_take_prefix, String.eqb_refl, str_drop_prefix.
  - intros location Hloc Hbase. unfold LocationController.computeRemainingPath.
    rewrite exec_hashless by done.
    destruct (LocationController.base this) as [b'|]; [|done].
    destruct Hbase as [->|Hne]; [done|].
    destruct (String.eqb b' EmptyString); [done|].
    destruct (Nat.ltb _ _); [done|].
    by rewrite (proj2 (String.eqb_neq _ _) Hne).
Qed.

Lemma base_location_witness :
  LocationController.computeRemainingPath "http://h/app/notes/3?tab=1"
    (base_controller "http://h/app")
  = LocationController.set_location (base_controller "http://h/app")
      EmptyString "notes/3?tab=1".
Proof.
  by apply (base_location "http://h/app" "/notes/3?tab=1" (base_controller "http://h/app")).
Defined.

(** X14. Writing a path and reading it back.  For a controller with a
    base that is not empty and holds no hash, in a window with a
    history, the location [handlePathPropertyChange] writes for a path
    reads back, through [_computeRemainingPath], as that path with an
    empty [query]: in hash mode when the path holds no question mark and
    no line terminator, in base mode when it holds no hash and does not
    start with a slash. *)
Theorem path_round_trip b this p :
  LocationController.base this = Some b → b ≠ EmptyString → hashless b →
  match LocationController.mode_ this with
  | LocationController.Hash => markless p ∧ one_line p
  | LocationController.Base => hashless p ∧ str_take 1 p ≠ "/"
  end →
  ∃ url,
    LocationController.handlePathPropertyChange true this (Some p)
    = Some (LocationController.replaceState url)
    ∧ LocationController.computeRemainingPath url this
      = LocationController.set_location this EmptyString p.
Proof.
  intros Hbase Hb Hhash Hp. unfold LocationController.handlePathPropertyChange.
  rewrite Hbase. cbn [default from_option id]. eexists. split; [reflexivity|].
  destruct (LocationController.mode_ this).
  - destruct Hp as [Hp Hslash].
    assert (Hl : hashless (b +:+ p)).
    { unfold hashless in *. by rewrite str_forallb_app, Hhash, Hp. }
    destruct (base_location b p this Hl) as [Hread _].
    rewrite (Hread Hbase Hb).
    destruct p as [|c p]; [done|].
    destruct (Ascii.eqb_spec c "/") as [->|Hc]; [done|].
    by destruct c as [[] [] [] [] [] [] [] []].
  - destruct Hp as [Hm Hl]. by apply hashbang_location.
Qed.

Lemma path_round_trip_witness :
  ∃ url,
    LocationController.handlePathPropertyChange true (hash_controller "http://h/app")
      (Some "notes/3")
    = Some (LocationController.replaceState url)
    ∧ LocationController.computeRemainingPath url (hash_controller "http://h/app")
      = LocationController.set_location (hash_controller "http://h/app")
          EmptyString "notes/3".
Proof.
  apply (path_round_trip "http://h/app"); by vm_compute.
Defined.
